(** * service-worker.js: the cache orchestration layer, embedded and verified

    The worker is event driven: an [install], an [activate] and a [fetch]
    listener, all working on the browser's [CacheStorage].  The embedding
    follows the source file line by line:

    - values the script reads ([Request], [Response], [URL]) are records;
    - the browser objects the script calls ([caches], a [Cache], [fetch],
      [new URL]) are modelled after the Service Worker and Fetch standards,
      the network and the URL parser being parameters of a deployment;
    - promise chains are written in a state-and-exception monad over the
      worker's [World]; a promise that nobody awaits is [detach]ed, and its
      rejection ends up in the list of unhandled rejections;
    - the [activate] listener, whose deletions run concurrently, is a
      transition system driven by a schedule. *)

From Stdlib Require Import List String Ascii Bool Arith NArith Lia Permutation.
Import ListNotations.
Local Open Scope string_scope.
Local Open Scope list_scope.

(* ================================================================== *)
(** * Strings *)

Module Str.

(** [String.prototype.includes]: [needle] occurs somewhere in [hay]. *)
Fixpoint includes (hay needle : string) : bool :=
  String.prefix needle hay ||
  match hay with
  | EmptyString => false
  | String _ rest => includes rest needle
  end.

(** ASCII lower-casing; every other character is left alone. *)
Definition lower_ascii (c : ascii) : ascii :=
  let n := N_of_ascii c in
  if ((65 <=? n) && (n <=? 90))%N then ascii_of_N (n + 32) else c.

Fixpoint lower (s : string) : string :=
  match s with
  | EmptyString => EmptyString
  | String c rest => String (lower_ascii c) (lower rest)
  end.

(** [suffix] is the end of [s]: [s] from some position on is [suffix]. *)
Fixpoint ends_with (suffix s : string) : bool :=
  (s =? suffix) ||
  match s with
  | EmptyString => false
  | String _ rest => ends_with suffix rest
  end.

Fixpoint mem (x : string) (l : list string) : bool :=
  match l with
  | [] => false
  | y :: l' => (x =? y) || mem x l'
  end.

Fixpoint nodupb (l : list string) : bool :=
  match l with
  | [] => true
  | x :: l' => negb (mem x l') && nodupb l'
  end.

End Str.

(* ================================================================== *)
(** * Values of the platform *)

(** A [Response] as far as the worker and the Cache API look at it.
    [vary_star] says that the [Vary] header contains [*]. *)
Record Response := mkResponse {
  status : N;
  statusText : string;
  body : option string;
  vary_star : bool
}.

(** [response.ok] *)
Definition ok (r : Response) : bool :=
  ((200 <=? status r) && (status r <=? 299))%N.

(** [response.clone()]: a second response with the same contents. *)
Definition clone (r : Response) : Response := r.

(** [new Response(body, { status, statusText })] *)
Definition new_Response (b : option string) (st : N) (txt : string) : Response :=
  {| status := st; statusText := txt; body := b; vary_star := false |}.

(** A [Request]: the fields the listeners read.  [accept] is
    [request.headers.get('accept')], [None] standing for [null]. *)
Record Request := mkRequest {
  method : string;
  url : string;
  mode : string;
  destination : string;
  accept : option string
}.

(** A parsed [URL]: the two components the script reads. *)
Record URL := mkURL {
  origin : string;
  pathname : string
}.

Inductive JsError :=
| TypeError (msg : string)
| InvalidStateError (msg : string).

(** What [fetch] settles to. *)
Inductive NetResult :=
| NetOk (r : Response)
| NetFail.

(** The script's three [console.warn] calls. *)
Inductive LogEntry :=
| WarnAddAllFailed (err : JsError)                     (* line 47 *)
| WarnFailedToCache (asset : string) (e : JsError)     (* line 53 *)
| WarnPutFailed (req_url : string) (e : JsError).      (* line 121 *)

(** A deployment: the two constants on top of the script, the worker's own
    origin, and the two platform services the script relies on. *)
Record Env := mkEnv {
  CACHE_VERSION : string;                (* line 5 *)
  ASSETS_TO_CACHE : list string;         (* line 8 *)
  location_origin : string;              (* self.location.origin *)
  URL_parse : string -> option URL;      (* new URL(s); None: it throws *)
  net : Request -> NetResult             (* the network behind fetch *)
}.

(** Line 6: [`phone-keypad-${CACHE_VERSION}`] *)
Definition cache_name_of (version : string) : string :=
  "phone-keypad-" ++ version.

Definition CACHE_NAME (E : Env) : string := cache_name_of (CACHE_VERSION E).

(* ================================================================== *)
(** * Cache and CacheStorage *)

(** A [Cache] is an ordered list of entries keyed by the absolute URL of
    the request; [CacheStorage] is an ordered list of named caches. *)
Definition Cache := list (string * Response).
Definition CacheStorage := list (string * Cache).

Definition cache_keys (c : Cache) : list string := map fst c.

(** [cache.match(key)] on one cache. *)
Definition cache_match (key : string) (c : Cache) : option Response :=
  match find (fun e => fst e =? key) c with
  | Some e => Some (snd e)
  | None => None
  end.

(** The effect of a successful [put]: entries matching the key are removed
    and the new pair is appended. *)
Definition cache_replace (key : string) (r : Response) (c : Cache) : Cache :=
  filter (fun e => negb (fst e =? key)) c ++ [(key, r)].

(** [caches.match(key)]: the first hit, the caches taken in order. *)
Fixpoint storage_match (key : string) (s : CacheStorage) : option Response :=
  match s with
  | [] => None
  | (_, c) :: s' =>
      match cache_match key c with
      | Some r => Some r
      | None => storage_match key s'
      end
  end.

Definition storage_names (s : CacheStorage) : list string := map fst s.

Definition storage_has (name : string) (s : CacheStorage) : bool :=
  Str.mem name (storage_names s).

(** The cache called [name], if there is one. *)
Fixpoint storage_get (name : string) (s : CacheStorage) : option Cache :=
  match s with
  | [] => None
  | (n, c) :: s' => if n =? name then Some c else storage_get name s'
  end.

Definition storage_open (name : string) (s : CacheStorage) : CacheStorage :=
  if storage_has name s then s else s ++ [(name, [])].

Definition storage_delete (name : string) (s : CacheStorage) : CacheStorage :=
  filter (fun nc => negb (fst nc =? name)) s.

Definition storage_update (name : string) (f : Cache -> Cache)
    (s : CacheStorage) : CacheStorage :=
  map (fun nc => if fst nc =? name then (fst nc, f (snd nc)) else nc) s.

(** The Cache API refuses to store a partial response and one that varies
    on everything. *)
Definition put_accepts (r : Response) : bool :=
  negb (status r =? 206)%N && negb (vary_star r).

(* ================================================================== *)
(** * The worker's world and its monad *)

Record World := mkWorld {
  caches : CacheStorage;
  console : list LogEntry;        (* console.warn calls, oldest first *)
  unhandled : list JsError;       (* rejections nobody handled *)
  skipped_waiting : bool          (* self.skipWaiting() was called *)
}.

Definition set_caches (s : CacheStorage) (w : World) : World :=
  {| caches := s; console := console w; unhandled := unhandled w;
     skipped_waiting := skipped_waiting w |}.

(** How a promise settles, or how a block of code completes. *)
Inductive Outcome (A : Type) :=
| Fulfilled (a : A)
| Rejected (e : JsError).
Arguments Fulfilled {A} a.
Arguments Rejected {A} e.

Definition M (A : Type) : Type := World -> Outcome A * World.

Definition ret {A} (a : A) : M A := fun w => (Fulfilled a, w).

Definition throw {A} (e : JsError) : M A := fun w => (Rejected e, w).

(** [.then(k)] on a promise, [await] followed by the rest of the body. *)
Definition bind {A B} (m : M A) (k : A -> M B) : M B :=
  fun w =>
    match m w with
    | (Fulfilled a, w') => k a w'
    | (Rejected e, w') => (Rejected e, w')
    end.

(** [.catch(h)] on a promise, [try { await ... } catch (e) { ... }]. *)
Definition try_catch {A} (m : M A) (h : JsError -> M A) : M A :=
  fun w =>
    match m w with
    | (Fulfilled a, w') => (Fulfilled a, w')
    | (Rejected e, w') => h e w'
    end.

(** A promise that is created and neither awaited nor returned: the
    enclosing code goes on at once and cannot see how it settles.  Should
    it reject, the rejection is unhandled. *)
Definition detach {A} (m : M A) : M unit :=
  fun w =>
    match m w with
    | (Fulfilled _, w') => (Fulfilled tt, w')
    | (Rejected e, w') =>
        (Fulfilled tt,
         {| caches := caches w'; console := console w';
            unhandled := unhandled w' ++ [e];
            skipped_waiting := skipped_waiting w' |})
    end.

Declare Scope js_scope.
Delimit Scope js_scope with js.
Notation "x <- m ;; k" := (bind m (fun x => k))
  (at level 61, m at next level, right associativity) : js_scope.
Notation "m ;; k" := (bind m (fun _ => k))
  (at level 61, right associativity) : js_scope.
Local Open Scope js_scope.

(** [Promise.all] over tasks that have all been started: every task runs,
    and the result rejects with the first rejection.  The tasks are given
    in the order in which they complete, which for concurrent tasks is
    any order and not that of the array. *)
Fixpoint promise_all {A} (tasks : list (M A)) : M (list A) :=
  match tasks with
  | [] => ret []
  | t :: rest =>
      fun w =>
        match t w with
        | (Fulfilled a, w1) =>
            match promise_all rest w1 with
            | (Fulfilled l, w2) => (Fulfilled (a :: l), w2)
            | (Rejected e, w2) => (Rejected e, w2)
            end
        | (Rejected e, w1) => (Rejected e, snd (promise_all rest w1))
        end
  end.

(** [console.warn] *)
Definition warn (entry : LogEntry) : M unit :=
  fun w =>
    (Fulfilled tt,
     {| caches := caches w; console := console w ++ [entry];
        unhandled := unhandled w; skipped_waiting := skipped_waiting w |}).

(** [self.skipWaiting()] *)
Definition skipWaiting : M unit :=
  fun w =>
    (Fulfilled tt,
     {| caches := caches w; console := console w;
        unhandled := unhandled w; skipped_waiting := true |}).

(* ================================================================== *)
(** * The platform calls of the script *)

(** A path such as ['/index.html'] names the URL of that path on the
    worker's own origin. *)
Definition resolve (E : Env) (path : string) : string :=
  location_origin E ++ path.

(** [new Request(path)] *)
Definition new_Request (E : Env) (path : string) : Request :=
  {| method := "GET"; url := resolve E path; mode := "cors";
     destination := ""; accept := None |}.

(** [new URL(s)]: throws a [TypeError] on a string that is no URL. *)
Definition new_URL (E : Env) (s : string) : M URL :=
  match URL_parse E s with
  | Some u => ret u
  | None => throw (TypeError "Invalid URL")
  end.

(** [fetch(req)] rejects when the network fails, and fulfils with the
    response otherwise, whatever its status. *)
Definition fetch (E : Env) (req : Request) : M Response :=
  match net E req with
  | NetOk r => ret r
  | NetFail => throw (TypeError "Failed to fetch")
  end.

(** [caches.open(name)] creates the cache when there is none of that name.
    The [Cache] object it hands out is represented by the name. *)
Definition caches_open (name : string) : M string :=
  fun w => (Fulfilled name, set_caches (storage_open name (caches w)) w).

(** [caches.match(key)]; [None] is [undefined]. *)
Definition caches_match (key : string) : M (option Response) :=
  fun w => (Fulfilled (storage_match key (caches w)), w).

(** [cache.put(key, response)]: a promise; it rejects with a [TypeError]
    on a response the Cache API refuses and never throws. *)
Definition cache_put (cache key : string) (r : Response) : M unit :=
  fun w =>
    if put_accepts r
    then (Fulfilled tt,
          set_caches (storage_update cache (cache_replace key r) (caches w)) w)
    else (Rejected (TypeError "Cache.put: response cannot be stored"), w).

(** What [cache.add(asset)] stores: the response fetched for the asset,
    provided the fetch succeeds, the status is in 200..299 and the Cache
    API accepts the response. *)
Definition add_fetch (E : Env) (asset : string) : JsError + Response :=
  match net E (new_Request E asset) with
  | NetFail => inl (TypeError "Failed to fetch")
  | NetOk r =>
      if ok r && put_accepts r then inr r
      else inl (TypeError "Cache.add: bad response")
  end.

(** [cache.add(asset)] *)
Definition cache_add (E : Env) (cache asset : string) : M unit :=
  fun w =>
    match add_fetch E asset with
    | inl e => (Rejected e, w)
    | inr r =>
        (Fulfilled tt,
         set_caches
           (storage_update cache (cache_replace (resolve E asset) r) (caches w))
           w)
    end.

(** The responses [cache.addAll(assets)] collects before it writes. *)
Fixpoint fetch_all (E : Env) (assets : list string)
    : JsError + list (string * Response) :=
  match assets with
  | [] => inr []
  | a :: rest =>
      match add_fetch E a with
      | inl e => inl e
      | inr r =>
          match fetch_all E rest with
          | inl e => inl e
          | inr l => inr ((resolve E a, r) :: l)
          end
      end
  end.

Definition cache_put_all (entries : list (string * Response)) (c : Cache)
    : Cache :=
  fold_left (fun acc e => cache_replace (fst e) (snd e) acc) entries c.

(** [cache.addAll(assets)]: all or nothing.  It rejects, and writes
    nothing, when one asset cannot be added or when two of the requests
    are the same. *)
Definition cache_addAll (E : Env) (cache : string) (assets : list string)
    : M unit :=
  fun w =>
    match fetch_all E assets with
    | inl e => (Rejected e, w)
    | inr entries =>
        if Str.nodupb (map fst entries)
        then (Fulfilled tt,
              set_caches
                (storage_update cache (cache_put_all entries) (caches w)) w)
        else (Rejected (InvalidStateError "Cache.addAll: duplicate requests"),
              w)
    end.

(* ================================================================== *)
(** * service-worker.js *)

(** Line 30: the extensions of [/\.(png|jpg|jpeg|gif|webp|svg|ico)$/i]. *)
Definition IMAGE_EXTENSIONS : list string :=
  ["png"; "jpg"; "jpeg"; "gif"; "webp"; "svg"; "ico"].

(** [/\.(png|jpg|jpeg|gif|webp|svg|ico)$/i.test(path)]: the path ends in a
    dot and one of the extensions, letters compared without case. *)
Definition image_regex_test (path : string) : bool :=
  existsb (fun ext => Str.ends_with ("." ++ ext) (Str.lower path))
          IMAGE_EXTENSIONS.

(** A string in a condition: the empty string is falsy. *)
Definition truthy (s : string) : bool := negb (s =? "").

(** Lines 26-34 *)
Definition isImageRequest (E : Env) (request : Request) : M bool :=
  if truthy (destination request) && (destination request =? "image")
  then ret true
  else
    try_catch
      (url <- new_URL E (url request) ;;
       ret (image_regex_test (pathname url)))
      (fun e => ret false).

(** Lines 37-60: the promise given to [event.waitUntil]. *)
Definition install (E : Env) : M unit :=
  skipWaiting ;;
  cache <- caches_open (CACHE_NAME E) ;;
  try_catch
    (cache_addAll E cache (ASSETS_TO_CACHE E))
    (fun err =>
       warn (WarnAddAllFailed err) ;;
       promise_all
         (map (fun asset =>
                 try_catch (cache_add E cache asset)
                           (fun e => warn (WarnFailedToCache asset e)))
              (ASSETS_TO_CACHE E)) ;;
       ret tt).

(** Lines 37-60 again, with the order made explicit in which the
    [cache.add] calls of line 49, started together, complete:
    [completion] lists the assets of the manifest in that order.
    [install] is the case in which they complete in the order of the
    manifest. *)
Definition install_completing (E : Env) (completion : list string) : M unit :=
  skipWaiting ;;
  cache <- caches_open (CACHE_NAME E) ;;
  try_catch
    (cache_addAll E cache (ASSETS_TO_CACHE E))
    (fun err =>
       warn (WarnAddAllFailed err) ;;
       promise_all
         (map (fun asset =>
                 try_catch (cache_add E cache asset)
                           (fun e => warn (WarnFailedToCache asset e)))
              completion) ;;
       ret tt).

(** Line 85: [(req.headers.get('accept') || '')] *)
Definition accept_or_empty (req : Request) : string :=
  match accept req with
  | Some a => if truthy a then a else ""
  | None => ""
  end.

(** Line 85: the test of the navigation branch. *)
Definition is_navigation (req : Request) : bool :=
  (mode req =? "navigate") || Str.includes (accept_or_empty req) "text/html".

(** What the [fetch] listener does with the event. *)
Inductive FetchEventResult :=
| NotIntercepted                   (* it returns without respondWith *)
| ListenerThrew (e : JsError)      (* it throws before respondWith *)
| RespondWith (p : Outcome (option Response)).

Definition respondWith (p : M (option Response))
    : World -> FetchEventResult * World :=
  fun w => let (o, w') := p w in (RespondWith o, w').

(** Line 134 *)
Definition service_unavailable : Response :=
  new_Response None 503 "Service Unavailable".

(** Lines 86-95: network first, the cached root document as a fallback. *)
Definition navigation_strategy (E : Env) (req : Request)
    : M (option Response) :=
  try_catch
    (networkResponse <- fetch E req ;;
     let copy := clone networkResponse in
     detach (cache <- caches_open (CACHE_NAME E) ;;
             cache_put cache (resolve E "/index.html") copy) ;;
     ret (Some networkResponse))
    (fun _ => caches_match (resolve E "/index.html")).

(** Lines 100-137: cache first, then the network, then a fallback.  A
    fetch that fulfils gives a [Response], so of the test of line 109 only
    the comparison of the status can succeed. *)
Definition cache_first_strategy (E : Env) (req : Request) (reqUrl : URL)
    : M (option Response) :=
  cached <- caches_match (url req) ;;
  match cached with
  | Some c => ret (Some c)
  | None =>
      try_catch
        (networkResponse <- fetch E req ;;
         if negb (status networkResponse =? 200)%N
         then ret (Some networkResponse)
         else
           (if origin reqUrl =? location_origin E
            then
              let clone := clone networkResponse in
              detach (cache <- caches_open (CACHE_NAME E) ;;
                      try_catch
                        (detach (cache_put cache (url req) clone))
                        (fun e => warn (WarnPutFailed (url req) e)))
            else ret tt) ;;
           ret (Some networkResponse))
        (fun _ =>
           image <- isImageRequest E req ;;
           if image
           then caches_match (resolve E "/apple-touch-icon-180.png")
           else ret (Some service_unavailable))
  end.

(** Lines 74-138 *)
Definition fetch_listener (E : Env) (req : Request)
    : World -> FetchEventResult * World :=
  fun w =>
    if negb (method req =? "GET") then (NotIntercepted, w)
    else
      match new_URL E (url req) w with
      | (Rejected e, w') => (ListenerThrew e, w')
      | (Fulfilled reqUrl, w') =>
          if is_navigation req
          then respondWith (navigation_strategy E req) w'
          else respondWith (cache_first_strategy E req reqUrl) w'
      end.

(** Lines 141-146.  [data] is [event.data]: [None] when it is falsy, and
    otherwise its [type] field, [None] when the field is missing. *)
Definition message_listener (data : option (option string)) : M unit :=
  match data with
  | None => ret tt
  | Some ty =>
      match ty with
      | Some t => if t =? "SKIP_WAITING" then skipWaiting else ret tt
      | None => ret tt
      end
  end.

(* ================================================================== *)
(** * The activate listener as a transition system

    Lines 63-71.  Once [caches.keys()] has resolved, one [caches.delete]
    is in flight for every stale name, and the deletions settle in any
    order, each with success or failure.  [Promise.all] counts the
    elements that are not fulfilled yet; the callback that claims the
    clients is a reaction to its fulfilment. *)

Inductive PromiseState := Pending | FulfilledP | RejectedP.

Record ActivateState := mkActivateState {
  act_caches : CacheStorage;
  deletions : list (string * PromiseState); (* caches.delete(k), in order *)
  remaining : nat;                 (* Promise.all: elements still awaited *)
  all_deleted : PromiseState;      (* the promise of Promise.all *)
  claimed : bool;                  (* self.clients.claim() was called *)
  lifetime : PromiseState          (* the promise given to waitUntil *)
}.

Definition is_fulfilled (p : PromiseState) : bool :=
  match p with FulfilledP => true | _ => false end.

Definition is_pending (p : PromiseState) : bool :=
  match p with Pending => true | _ => false end.

(** Lines 65-68: the names to delete. *)
Definition stale_names (E : Env) (keys : list string) : list string :=
  filter (fun k => negb (k =? CACHE_NAME E)) keys.

(** The state when [Promise.all] has been called on the deletions. *)
Definition activate_begin (E : Env) (stores : CacheStorage) : ActivateState :=
  let stale := stale_names E (storage_names stores) in
  {| act_caches := stores;
     deletions := map (fun k => (k, Pending)) stale;
     remaining := List.length stale;
     all_deleted := match stale with [] => FulfilledP | _ => Pending end;
     claimed := false;
     lifetime := Pending |}.

Inductive Action :=
| DeleteSettles (i : nat) (success : bool)  (* the i-th deletion settles *)
| RunThen.                                  (* the callback of line 69 runs *)

Definition set_nth {A} (i : nat) (x : A) (l : list A) : list A :=
  firstn i l ++ x :: skipn (S i) l.

Definition activate_step (a : Action) (s : ActivateState)
    : option ActivateState :=
  match a with
  | DeleteSettles i true =>
      match nth_error (deletions s) i with
      | Some (k, Pending) =>
          Some {| act_caches := storage_delete k (act_caches s);
                  deletions := set_nth i (k, FulfilledP) (deletions s);
                  remaining := remaining s - 1;
                  all_deleted :=
                    if is_pending (all_deleted s) && (remaining s - 1 =? 0)%nat
                    then FulfilledP else all_deleted s;
                  claimed := claimed s;
                  lifetime := lifetime s |}
      | _ => None
      end
  | DeleteSettles i false =>
      match nth_error (deletions s) i with
      | Some (k, Pending) =>
          Some {| act_caches := act_caches s;
                  deletions := set_nth i (k, RejectedP) (deletions s);
                  remaining := remaining s;
                  all_deleted :=
                    if is_pending (all_deleted s) then RejectedP
                    else all_deleted s;
                  claimed := claimed s;
                  lifetime :=
                    if is_pending (all_deleted s) then RejectedP
                    else lifetime s |}
      | _ => None
      end
  | RunThen =>
      if is_fulfilled (all_deleted s) && negb (claimed s)
      then Some {| act_caches := act_caches s;
                   deletions := deletions s;
                   remaining := remaining s;
                   all_deleted := all_deleted s;
                   claimed := true;
                   lifetime := FulfilledP |}
      else None
  end.

(** A schedule is run from left to right; [None] when an action of the
    schedule is not enabled. *)
Fixpoint activate_run (schedule : list Action) (s : ActivateState)
    : option ActivateState :=
  match schedule with
  | [] => Some s
  | a :: rest =>
      match activate_step a s with
      | Some s' => activate_run rest s'
      | None => None
      end
  end.

(** The schedule on which every deletion succeeds, in the order of the
    array, and the clients are claimed at the end. *)
Definition orderly_schedule (n : nat) : list Action :=
  map (fun i => DeleteSettles i true) (seq 0 n) ++ [RunThen].

(* ================================================================== *)
(** * Worlds named in the statements *)

(** The world after a detached [caches.open(CACHE_NAME)] followed by
    [cache.put(key, r)] (lines 91 and 116-123): the current cache is open,
    and it holds the response under the key unless the Cache API refused
    the response, in which case the rejection of [cache.put] is left
    unhandled. *)
Definition after_detached_put (E : Env) (key : string) (r : Response)
    (w : World) : World :=
  if put_accepts r
  then set_caches
         (storage_update (CACHE_NAME E) (cache_replace key r)
            (storage_open (CACHE_NAME E) (caches w))) w
  else {| caches := storage_open (CACHE_NAME E) (caches w);
          console := console w;
          unhandled :=
            (unhandled w ++
             [TypeError "Cache.put: response cannot be stored"])%list;
          skipped_waiting := skipped_waiting w |}.

(** The entry of the current cache under [key]. *)
Definition current_entry (E : Env) (key : string) (w : World)
    : option Response :=
  match storage_get (CACHE_NAME E) (caches w) with
  | Some c => cache_match key c
  | None => None
  end.

(** The world in which line 44 calls [cache.addAll], and how that call
    settles. *)
Definition install_opened (E : Env) (w : World) : World :=
  snd (caches_open (CACHE_NAME E) (snd (skipWaiting w))).

Definition bulk_attempt (E : Env) (w : World) : Outcome unit :=
  fst (cache_addAll E (CACHE_NAME E) (ASSETS_TO_CACHE E) (install_opened E w)).

(** The entries that the [cache.add] calls of line 51 write, and the
    warnings that line 53 logs, asset by asset. *)
Fixpoint salvaged (E : Env) (assets : list string)
    : list (string * Response) :=
  match assets with
  | [] => []
  | a :: rest =>
      match add_fetch E a with
      | inr r => (resolve E a, r) :: salvaged E rest
      | inl _ => salvaged E rest
      end
  end.

Fixpoint add_warnings (E : Env) (assets : list string) : list LogEntry :=
  match assets with
  | [] => []
  | a :: rest =>
      match add_fetch E a with
      | inr _ => add_warnings E rest
      | inl e => WarnFailedToCache a e :: add_warnings E rest
      end
  end.



(** The deletion of [name] has been fulfilled. *)
Definition deleted_in (ds : list (string * PromiseState)) (name : string)
    : bool :=
  existsb (fun d => (fst d =? name) && is_fulfilled (snd d)) ds.

(** The number of deletions that are not fulfilled. *)
Definition awaited (ds : list (string * PromiseState)) : nat :=
  List.length (filter (fun d => negb (is_fulfilled (snd d))) ds).

(** What holds in every state that the listener reaches from [stores]. *)
Record ActivateInv (E : Env) (stores : CacheStorage) (s : ActivateState)
    : Prop := mkActivateInv {
  inv_names :
    map fst (deletions s) = stale_names E (storage_names stores);
  inv_remaining : remaining s = awaited (deletions s);
  inv_all : all_deleted s = FulfilledP -> remaining s = 0;
  inv_claimed : claimed s = true -> all_deleted s = FulfilledP;
  inv_lifetime : lifetime s = FulfilledP -> claimed s = true;
  inv_caches :
    act_caches s =
    filter (fun nc => negb (deleted_in (deletions s) (fst nc))) stores
}.

(** The same deployment on another network. *)
Definition with_net (E : Env) (network : Request -> NetResult) : Env :=
  {| CACHE_VERSION := CACHE_VERSION E;
     ASSETS_TO_CACHE := ASSETS_TO_CACHE E;
     location_origin := location_origin E;
     URL_parse := URL_parse E;
     net := network |}.

(** A storage as the platform keeps it: no two caches of one name, and no
    key twice in a cache. *)
Definition storage_wf (s : CacheStorage) : Prop :=
  NoDup (storage_names s) /\
  forall n c, In (n, c) s -> NoDup (cache_keys c).

(** Line 143: the message is the command to skip waiting. *)
Definition is_skip_command (data : option (option string)) : bool :=
  match data with
  | Some (Some t) => t =? "SKIP_WAITING"
  | _ => false
  end.

(** Lines 129-132 read on the parsed URL: the request asks for an image. *)
Definition asks_image (req : Request) (reqUrl : URL) : bool :=
  (destination req =? "image") || image_regex_test (pathname reqUrl).

(** What a failed deletion entails in every state of the activate
    listener: [Promise.all] has rejected, and with it the promise given to
    [waitUntil]. *)
Definition FailureInv (s : ActivateState) : Prop :=
  (all_deleted s = RejectedP -> lifetime s = RejectedP) /\
  ((exists d, In d (deletions s) /\ snd d = RejectedP) ->
   all_deleted s = RejectedP).

(* ================================================================== *)
(** * Deployments and worlds used in the examples *)

Module Demo.

(** The parser of the examples: [https://host/path], the path ending at
    the first [?] or [#]; every other string is refused. *)
Fixpoint until_slash (s : string) : string * string :=
  match s with
  | EmptyString => (EmptyString, EmptyString)
  | String c rest =>
      if (c =? "/")%char then (EmptyString, s)
      else let (h, p) := until_slash rest in (String c h, p)
  end.

Fixpoint path_only (s : string) : string :=
  match s with
  | EmptyString => EmptyString
  | String c rest =>
      if ((c =? "?") || (c =? "#"))%char then EmptyString
      else String c (path_only rest)
  end.

Definition parse_https (s : string) : option URL :=
  if String.prefix "https://" s
  then
    let (host, path) :=
      until_slash (substring 8 (String.length s - 8) s) in
    if host =? "" then None
    else Some {| origin := "https://" ++ host;
                 pathname := if path =? "" then "/" else path_only path |}
  else None.

(** A network given by a table from URLs to responses; a URL that is not
    in the table cannot be reached. *)
Fixpoint lookup (table : list (string * Response)) (u : string)
    : NetResult :=
  match table with
  | [] => NetFail
  | (k, r) :: rest => if k =? u then NetOk r else lookup rest u
  end.

Definition table_net (table : list (string * Response)) : Request -> NetResult :=
  fun req => lookup table (url req).

Definition offline : Request -> NetResult := fun _ => NetFail.

Definition app_origin : string := "https://app.example".

Definition page (text : string) : Response :=
  {| status := 200; statusText := "OK"; body := Some text;
     vary_star := false |}.

Definition not_found : Response :=
  {| status := 404; statusText := "Not Found"; body := Some "no such page";
     vary_star := false |}.

(** A 200 response that the Cache API refuses ([Vary: *]). *)
Definition varying (text : string) : Response :=
  {| status := 200; statusText := "OK"; body := Some text;
     vary_star := true |}.

(** Lines 5 and 8-23: the constants as they are in the script. *)
Definition shipped_version : string := "v2".

Definition shipped_assets : list string :=
  ["/"; "/index.html"; "/styles.css"; "/app.js"; "/manifest.json";
   "/apple-touch-icon-180.png"; "/icon-192.png"; "/icon-512.png";
   "/favicon-32x32.png"; "/numpad.png"].

Definition deployment (assets : list string) (network : Request -> NetResult)
    : Env :=
  {| CACHE_VERSION := shipped_version;
     ASSETS_TO_CACHE := assets;
     location_origin := app_origin;
     URL_parse := parse_https;
     net := network |}.

Definition fresh : World :=
  {| caches := []; console := []; unhandled := [];
     skipped_waiting := false |}.

Definition with_caches (s : CacheStorage) : World :=
  {| caches := s; console := []; unhandled := [];
     skipped_waiting := false |}.

Definition get (u : string) (m dest : string) (acc : option string)
    : Request :=
  {| method := "GET"; url := u; mode := m; destination := dest;
     accept := acc |}.

(** A page navigation, a script and an image of the application. *)
Definition nav_request : Request :=
  get "https://app.example/settings" "navigate" "document"
      (Some "text/html,application/xhtml+xml").

Definition script_request : Request :=
  get "https://app.example/extra.js" "no-cors" "script" (Some "*/*").

Definition image_request : Request :=
  get "https://app.example/photos/cat.JPG" "no-cors" "" (Some "*/*").

Definition root_key : string := "https://app.example/index.html".
Definition icon_key : string := "https://app.example/apple-touch-icon-180.png".

(** The manifest of the install scenario, and a network on which the
    third asset is missing. *)
Definition shell_assets : list string := ["/"; "/app.js"; "/missing.png"].

Definition shell_net : Request -> NetResult :=
  table_net [("https://app.example/", page "<html>");
             ("https://app.example/app.js", page "js");
             ("https://app.example/missing.png", not_found)].

Definition shell_env : Env := deployment shell_assets shell_net.

(** A network that serves every asset of the script. *)
Definition full_net : Request -> NetResult :=
  table_net (map (fun a => ((app_origin ++ a)%string, page a)) shipped_assets).

Definition shipped_env : Env := deployment shipped_assets full_net.

Definition offline_env : Env := deployment shipped_assets offline.

(** A network that answers the navigation with a page, with an error
    page, and the script with a response the Cache API refuses. *)
Definition settings_env : Env :=
  deployment shipped_assets
    (table_net [("https://app.example/settings", page "<settings>")]).

Definition error_page_env : Env :=
  deployment shipped_assets
    (table_net [("https://app.example/settings", not_found)]).

Definition varying_env : Env :=
  deployment shipped_assets
    (table_net [("https://app.example/extra.js", varying "js")]).

(** A world whose current cache holds the root document and the icon. *)
Definition stocked : World :=
  with_caches
    [("phone-keypad-v2",
      [(root_key, page "<html>"); (icon_key, page "png")])].

(** A world whose current cache holds an entry from an earlier run. *)
Definition used : World :=
  with_caches
    [("phone-keypad-v2", [("https://app.example/app.js", page "old js")])].

(** Storages at the start of activate: the caches of two generations and
    one of another application; the cache of the old generation alone. *)
Definition generations : CacheStorage :=
  [("phone-keypad-v1", [(root_key, page "<old>")]);
   ("phone-keypad-v2", [(root_key, page "<html>")]);
   ("notes", [])].

Definition old_only : CacheStorage :=
  [("phone-keypad-v1", [(root_key, page "<old>")])].

(** The deletions of [generations] settle in the reverse order. *)
Definition reverse_schedule : list Action :=
  [DeleteSettles 1 true; DeleteSettles 0 true; RunThen].

Definition generations_done : ActivateState :=
  {| act_caches := [("phone-keypad-v2", [(root_key, page "<html>")])];
     deletions := [("phone-keypad-v1", FulfilledP); ("notes", FulfilledP)];
     remaining := 0;
     all_deleted := FulfilledP;
     claimed := true;
     lifetime := FulfilledP |}.

Definition old_only_done : ActivateState :=
  {| act_caches := [];
     deletions := [("phone-keypad-v1", FulfilledP)];
     remaining := 0;
     all_deleted := FulfilledP;
     claimed := true;
     lifetime := FulfilledP |}.

(** A request with another method, and a second navigation. *)
Definition post_request : Request :=
  {| method := "POST"; url := "https://app.example/api/call"; mode := "cors";
     destination := ""; accept := Some "application/json" |}.

Definition home_request : Request :=
  get "https://app.example/" "navigate" "document" (Some "text/html").

(** A script of another origin and a network that serves both scripts. *)
Definition cdn_request : Request :=
  get "https://cdn.example/lib.js" "no-cors" "script" (Some "*/*").

Definition scripts_env : Env :=
  deployment shipped_assets
    (table_net [("https://app.example/extra.js", page "extra");
                ("https://cdn.example/lib.js", page "lib")]).

(** The upgrade from the old generation: install, then activate. *)
Definition old_world : World := with_caches old_only.

Definition upgrade_done : ActivateState :=
  {| act_caches :=
       [("phone-keypad-v2",
         [("https://app.example/", page "<html>");
          ("https://app.example/app.js", page "js")])];
     deletions := [("phone-keypad-v1", FulfilledP)];
     remaining := 0;
     all_deleted := FulfilledP;
     claimed := true;
     lifetime := FulfilledP |}.

(** The first deletion of [generations] fails, the second succeeds. *)
Definition failing_schedule : list Action :=
  [DeleteSettles 0 false; DeleteSettles 1 true].

Definition generations_failed : ActivateState :=
  {| act_caches :=
       [("phone-keypad-v1", [(root_key, page "<old>")]);
        ("phone-keypad-v2", [(root_key, page "<html>")])];
     deletions := [("phone-keypad-v1", RejectedP); ("notes", FulfilledP)];
     remaining := 1;
     all_deleted := RejectedP;
     claimed := false;
     lifetime := RejectedP |}.

(** A request for a script of the manifest. *)
Definition app_js_request : Request :=
  get "https://app.example/app.js" "no-cors" "script" None.

(** The network answers the navigation with a page that the Cache API
    refuses. *)
Definition varying_nav_env : Env :=
  deployment shipped_assets
    (table_net [("https://app.example/settings", varying "<settings>")]).

(** The single adds of [shell_assets] complete in the reverse order. *)
Definition reverse_completion : list string := rev shell_assets.

End Demo.

(* ================================================================== *)
(** * Lemmas on strings *)

Local Open Scope string_scope.

Lemma ends_with_iff (suffix s : string) :
  Str.ends_with suffix s = true <-> exists stem, s = stem ++ suffix.
Proof.
  induction s as [|c s IH]; cbn [Str.ends_with].
  - rewrite orb_false_r, String.eqb_eq. split.
    + intros <-. now exists "".
    + intros [stem H]. destruct stem; simpl in H; [easy | discriminate].
  - rewrite orb_true_iff, String.eqb_eq, IH. split.
    + intros [<- | [stem ->]]; [now exists "" | now exists (String c stem)].
    + intros [stem H]. destruct stem as [|d stem]; simpl in H.
      * now left.
      * right. exists stem. now inversion H.
Qed.

(** The regular expression of line 30, read as the specification words it:
    the path ends, letters compared without case, in a dot and one of the
    seven extensions. *)
Lemma image_regex_test_iff (path : string) :
  image_regex_test path = true <->
  exists ext stem,
    In ext IMAGE_EXTENSIONS /\ Str.lower path = stem ++ "." ++ ext.
Proof.
  unfold image_regex_test. rewrite existsb_exists. split.
  - intros [ext [Hin H]]. apply ends_with_iff in H. destruct H as [stem H].
    now exists ext, stem.
  - intros [ext [stem [Hin H]]]. exists ext. split; [easy|].
    apply ends_with_iff. now exists stem.
Qed.

Lemma mem_In (x : string) (l : list string) :
  Str.mem x l = true <-> In x l.
Proof.
  induction l as [|y l IH]; simpl.
  - split; [discriminate | tauto].
  - rewrite orb_true_iff, String.eqb_eq, IH. split; intros [H|H]; auto.
Qed.

Lemma mem_false_not_In (x : string) (l : list string) :
  Str.mem x l = false <-> ~ In x l.
Proof.
  rewrite <- mem_In. destruct (Str.mem x l); split; congruence.
Qed.

Lemma nodupb_NoDup (l : list string) :
  Str.nodupb l = true <-> NoDup l.
Proof.
  induction l as [|x l IH]; simpl.
  - split; [constructor | reflexivity].
  - rewrite andb_true_iff, negb_true_iff, mem_false_not_In, IH. split.
    + intros [H1 H2]. now constructor.
    + intros H. inversion H; subst. now split.
Qed.

Lemma append_inj_l (p a b : string) : p ++ a = p ++ b -> a = b.
Proof.
  induction p as [|c p IH]; simpl; intros H; [easy|].
  apply IH. now inversion H.
Qed.

(** Two versions give the same cache name only if they are the same. *)
Lemma cache_name_of_inj (v1 v2 : string) :
  cache_name_of v1 = cache_name_of v2 -> v1 = v2.
Proof. apply append_inj_l. Qed.

(* ================================================================== *)
(** * Lemmas on caches *)

Lemma find_append {A} (f : A -> bool) (l1 l2 : list A) :
  find f (l1 ++ l2)%list =
  match find f l1 with Some x => Some x | None => find f l2 end.
Proof.
  induction l1 as [|x l1 IH]; simpl; [easy|]. now destruct (f x).
Qed.

Lemma find_filter_none {A} (f : A -> bool) (l : list A) :
  find f (filter (fun x => negb (f x)) l) = None.
Proof.
  induction l as [|x l IH]; simpl; [easy|].
  destruct (f x) eqn:Hf; simpl; [easy|]. now rewrite Hf.
Qed.

Lemma find_filter_other {A} (f g : A -> bool) (l : list A) :
  (forall x, f x = true -> g x = true) ->
  find f (filter g l) = find f l.
Proof.
  intros Hfg. induction l as [|x l IH]; simpl; [easy|].
  destruct (f x) eqn:Hf.
  - rewrite (Hfg x Hf). simpl. now rewrite Hf.
  - destruct (g x); simpl; [now rewrite Hf | easy].
Qed.

Lemma cache_match_replace_same (key : string) (r : Response) (c : Cache) :
  cache_match key (cache_replace key r c) = Some r.
Proof.
  unfold cache_match, cache_replace. rewrite find_append.
  rewrite (find_filter_none (fun e => fst e =? key)). simpl.
  now rewrite String.eqb_refl.
Qed.

Lemma cache_match_replace_other (key k : string) (r : Response) (c : Cache) :
  k <> key ->
  cache_match key (cache_replace k r c) = cache_match key c.
Proof.
  intros Hk. unfold cache_match, cache_replace. rewrite find_append.
  rewrite find_filter_other.
  - destruct (find _ c); [easy|]. simpl.
    apply String.eqb_neq in Hk. now rewrite Hk.
  - intros [k' r'] H. simpl in *. apply String.eqb_eq in H. subst k'.
    apply negb_true_iff. apply String.eqb_neq. congruence.
Qed.

Lemma storage_has_get (name : string) (s : CacheStorage) :
  storage_has name s = true <-> exists c, storage_get name s = Some c.
Proof.
  unfold storage_has, storage_names.
  induction s as [|[n c] s IH]; simpl.
  - split; [discriminate | intros [c H]; discriminate].
  - rewrite String.eqb_sym. destruct (n =? name); simpl.
    + split; [now exists c | easy].
    + exact IH.
Qed.

Lemma storage_get_app (name : string) (s1 s2 : CacheStorage) :
  storage_get name (s1 ++ s2)%list =
  match storage_get name s1 with
  | Some c => Some c
  | None => storage_get name s2
  end.
Proof.
  induction s1 as [|[n c] s1 IH]; simpl; [easy|]. now destruct (n =? name).
Qed.

(** After [caches.open(name)] there is a cache of that name: the one that
    was there, or an empty one. *)
Lemma storage_get_open (name : string) (s : CacheStorage) :
  storage_get name (storage_open name s) =
  Some (match storage_get name s with Some c => c | None => [] end).
Proof.
  unfold storage_open. destruct (storage_has name s) eqn:H.
  - apply storage_has_get in H. destruct H as [c H]. now rewrite H.
  - rewrite storage_get_app. destruct (storage_get name s) eqn:G.
    + assert (storage_has name s = true) by (apply storage_has_get; eauto).
      congruence.
    + simpl. now rewrite String.eqb_refl.
Qed.

Lemma storage_get_open_other (name n : string) (s : CacheStorage) :
  n <> name ->
  storage_get n (storage_open name s) = storage_get n s.
Proof.
  intros Hn. unfold storage_open. destruct (storage_has name s); [easy|].
  rewrite storage_get_app. destruct (storage_get n s); [easy|]. simpl.
  apply not_eq_sym in Hn. apply String.eqb_neq in Hn. now rewrite Hn.
Qed.

Lemma storage_get_update (name : string) (f : Cache -> Cache)
    (s : CacheStorage) :
  storage_get name (storage_update name f s) =
  option_map f (storage_get name s).
Proof.
  unfold storage_update. induction s as [|[n c] s IH]; simpl; [easy|].
  destruct (n =? name) eqn:H; simpl; now rewrite H.
Qed.

Lemma storage_get_update_other (name n : string) (f : Cache -> Cache)
    (s : CacheStorage) :
  n <> name ->
  storage_get n (storage_update name f s) = storage_get n s.
Proof.
  intros Hn. unfold storage_update.
  induction s as [|[m c] s IH]; simpl; [easy|].
  destruct (m =? name) eqn:H; simpl.
  - apply String.eqb_eq in H. subst m.
    apply not_eq_sym in Hn. apply String.eqb_neq in Hn. now rewrite Hn.
  - now rewrite IH.
Qed.

Lemma storage_names_update (name : string) (f : Cache -> Cache)
    (s : CacheStorage) :
  storage_names (storage_update name f s) = storage_names s.
Proof.
  unfold storage_names, storage_update. rewrite map_map. apply map_ext.
  intros [n c]. simpl. now destruct (n =? name).
Qed.

(* ================================================================== *)
(** * The fetch listener *)

Section FetchPhase.

Variable E : Env.

(** A GET request whose URL parses reaches one of the two strategies. *)
Lemma fetch_listener_get (req : Request) (reqUrl : URL) (w : World) :
  method req = "GET" ->
  URL_parse E (url req) = Some reqUrl ->
  fetch_listener E req w =
  if is_navigation req
  then respondWith (navigation_strategy E req) w
  else respondWith (cache_first_strategy E req reqUrl) w.
Proof.
  intros Hm Hu. unfold fetch_listener, new_URL.
  rewrite Hm, Hu. reflexivity.
Qed.

(** Every other method is left to the browser, the world untouched. *)
Lemma fetch_listener_not_get (req : Request) (w : World) :
  method req <> "GET" ->
  fetch_listener E req w = (NotIntercepted, w).
Proof.
  intros Hm. unfold fetch_listener.
  apply String.eqb_neq in Hm. now rewrite Hm.
Qed.

Lemma navigation_online (req : Request) (r : Response) (w : World) :
  net E req = NetOk r ->
  navigation_strategy E req w =
  (Fulfilled (Some r),
   after_detached_put E (resolve E "/index.html") r w).
Proof.
  intros Hn.
  unfold navigation_strategy, try_catch, bind, fetch, detach, caches_open,
    cache_put, after_detached_put, clone, ret.
  rewrite Hn. simpl. destruct (put_accepts r); reflexivity.
Qed.

Lemma navigation_offline (req : Request) (w : World) :
  net E req = NetFail ->
  navigation_strategy E req w =
  (Fulfilled (storage_match (resolve E "/index.html") (caches w)), w).
Proof.
  intros Hn.
  unfold navigation_strategy, try_catch, bind, fetch, throw, caches_match.
  now rewrite Hn.
Qed.

(** When the Cache API accepts the response, the current cache holds it
    under the key afterwards. *)
Lemma detached_put_stored (key : string) (r : Response) (w : World) :
  put_accepts r = true ->
  exists c,
    storage_get (CACHE_NAME E) (caches (after_detached_put E key r w))
      = Some c /\
    cache_match key c = Some r.
Proof.
  intros Hp. unfold after_detached_put. rewrite Hp. simpl.
  rewrite storage_get_update, storage_get_open. simpl.
  eexists. split; [reflexivity|]. apply cache_match_replace_same.
Qed.

(** Lines 106-126: a cache miss with the network up.  The response goes
    to the page; the write is attempted for a response of status 200 to a
    request on the worker's own origin, and for no other. *)
Lemma cache_first_online (req : Request) (reqUrl : URL) (r : Response)
    (w : World) :
  storage_match (url req) (caches w) = None ->
  net E req = NetOk r ->
  cache_first_strategy E req reqUrl w =
  (Fulfilled (Some r),
   if (status r =? 200)%N && (origin reqUrl =? location_origin E)
   then after_detached_put E (url req) r w
   else w).
Proof.
  intros Hc Hn.
  unfold cache_first_strategy, bind at 1, caches_match. rewrite Hc.
  unfold try_catch at 1, bind at 1, fetch. rewrite Hn. unfold ret at 1.
  destruct (status r =? 200)%N; simpl; [|reflexivity].
  destruct (origin reqUrl =? location_origin E); simpl; [|reflexivity].
  unfold bind, detach, try_catch, caches_open, cache_put, after_detached_put,
    clone, ret.
  simpl. destruct (put_accepts r); reflexivity.
Qed.

(** A cache hit is answered from the cache, the world untouched. *)
Lemma cache_first_hit (req : Request) (reqUrl : URL) (cached : Response)
    (w : World) :
  storage_match (url req) (caches w) = Some cached ->
  cache_first_strategy E req reqUrl w = (Fulfilled (Some cached), w).
Proof.
  intros Hc. unfold cache_first_strategy, bind, caches_match.
  now rewrite Hc.
Qed.

(** The image test never touches the world and never throws. *)
Lemma isImageRequest_pure (request : Request) (w : World) :
  isImageRequest E request w =
  (Fulfilled
     ((destination request =? "image") ||
      match URL_parse E (url request) with
      | Some u => image_regex_test (pathname u)
      | None => false
      end), w).
Proof.
  unfold isImageRequest, truthy.
  destruct (destination request =? "image") eqn:Hd.
  - apply String.eqb_eq in Hd. rewrite Hd. reflexivity.
  - rewrite andb_false_r. simpl.
    unfold try_catch, bind, new_URL.
    destruct (URL_parse E (url request)); reflexivity.
Qed.

(** The fallback of lines 127-135, taken on a cache miss when the network
    is down. *)
Lemma cache_first_offline (req : Request) (reqUrl : URL) (w : World) :
  storage_match (url req) (caches w) = None ->
  net E req = NetFail ->
  cache_first_strategy E req reqUrl w =
  (Fulfilled
     (if (destination req =? "image") ||
         match URL_parse E (url req) with
         | Some u => image_regex_test (pathname u)
         | None => false
         end
      then storage_match (resolve E "/apple-touch-icon-180.png") (caches w)
      else Some service_unavailable), w).
Proof.
  intros Hc Hn.
  unfold cache_first_strategy, bind at 1, caches_match.
  rewrite Hc. unfold try_catch, bind at 1, fetch, throw. rewrite Hn.
  unfold bind. rewrite isImageRequest_pure.
  destruct (_ || _); reflexivity.
Qed.

End FetchPhase.

(* ================================================================== *)
(** * Navigation requests (lines 85-97) *)

(** C1 (amended). A GET request that the listener takes for a navigation
    (its mode is [navigate], or its accept header includes [text/html]) is
    served network first.  If the fetch succeeds with [r], the page is
    answered with [r] itself and the write of line 91 is made with a copy
    of [r]: when the Cache API accepts the response, the copy is under the
    key of the root document in the current cache afterwards; when it
    refuses the response, the entry under that key is left as it was.  If
    the fetch fails, the page is answered with what
    [caches.match('/index.html')] finds: the cached root document when
    there is one, and no response at all ([None], which reaches the caller
    as a network error) when there is none; the world is left as it
    was. *)
Theorem C1_navigation_network_first
    (E : Env) (req : Request) (w : World) :
  method req = "GET" ->
  URL_parse E (url req) <> None ->
  is_navigation req = true ->
  (forall r, net E req = NetOk r ->
     fetch_listener E req w =
       (RespondWith (Fulfilled (Some r)),
        after_detached_put E (resolve E "/index.html") (clone r) w) /\
     (put_accepts r = true ->
      exists c,
        storage_get (CACHE_NAME E) (caches (snd (fetch_listener E req w)))
          = Some c /\
        cache_match (resolve E "/index.html") c = Some (clone r)) /\
     (put_accepts r = false ->
      current_entry E (resolve E "/index.html") (snd (fetch_listener E req w))
        = current_entry E (resolve E "/index.html") w)) /\
  (net E req = NetFail ->
     fetch_listener E req w =
     (RespondWith
        (Fulfilled (storage_match (resolve E "/index.html") (caches w))), w)).
Proof.
  intros Hm Hu Hnav.
  destruct (URL_parse E (url req)) as [reqUrl|] eqn:Hp; [|congruence].
  rewrite (fetch_listener_get E req reqUrl w Hm Hp), Hnav.
  unfold respondWith. split.
  - intros r Hr. rewrite (navigation_online E req r w Hr). simpl.
    split; [reflexivity|]. split.
    + intros Hacc. exact (detached_put_stored E _ r w Hacc).
    + intros Href. unfold after_detached_put, clone. rewrite Href.
      unfold current_entry. simpl. rewrite storage_get_open.
      now destruct (storage_get (CACHE_NAME E) (caches w)).
  - intros Hf. now rewrite (navigation_offline E req w Hf).
Qed.

(* ================================================================== *)
(** * Other GET requests (lines 99-137) *)

(** C4. A GET request that is neither a navigation nor an image, for which
    no cache has an entry and whose fetch fails, is answered with the
    response made on line 134: status 503 and no body.  The answer is the
    same in every world, so nothing cached, and in particular not the root
    document, is ever put in its place; the world is left as it was. *)
Theorem C4_generic_asset_unavailable
    (E : Env) (req : Request) (reqUrl : URL) (w : World) :
  method req = "GET" ->
  URL_parse E (url req) = Some reqUrl ->
  is_navigation req = false ->
  destination req <> "image" ->
  image_regex_test (pathname reqUrl) = false ->
  storage_match (url req) (caches w) = None ->
  net E req = NetFail ->
  fetch_listener E req w =
    (RespondWith (Fulfilled (Some service_unavailable)), w) /\
  status service_unavailable = 503%N /\
  body service_unavailable = None.
Proof.
  intros Hm Hp Hnav Hd Hx Hc Hn.
  rewrite (fetch_listener_get E req reqUrl w Hm Hp), Hnav.
  unfold respondWith.
  rewrite (cache_first_offline E req reqUrl w Hc Hn), Hp, Hx.
  apply String.eqb_neq in Hd. rewrite Hd. simpl. auto.
Qed.

(** C5. A GET request that is not a navigation and is an image (its
    destination is [image], or its path ends in one of the extensions of
    line 30, whatever the case of the letters), for which no cache has an
    entry and whose fetch fails, is answered with what
    [caches.match('/apple-touch-icon-180.png')] finds: the cached icon when
    there is one, and no response ([None]) when there is none. *)
Theorem C5_image_fallback_icon
    (E : Env) (req : Request) (reqUrl : URL) (w : World) :
  method req = "GET" ->
  URL_parse E (url req) = Some reqUrl ->
  is_navigation req = false ->
  destination req = "image" \/
    (exists ext stem,
       In ext IMAGE_EXTENSIONS /\
       Str.lower (pathname reqUrl) = stem ++ "." ++ ext) ->
  storage_match (url req) (caches w) = None ->
  net E req = NetFail ->
  fetch_listener E req w =
    (RespondWith
       (Fulfilled
          (storage_match (resolve E "/apple-touch-icon-180.png") (caches w))),
     w).
Proof.
  intros Hm Hp Hnav Himg Hc Hn.
  rewrite (fetch_listener_get E req reqUrl w Hm Hp), Hnav.
  unfold respondWith.
  rewrite (cache_first_offline E req reqUrl w Hc Hn), Hp.
  assert (Ht : (destination req =? "image")
               || image_regex_test (pathname reqUrl) = true).
  { apply orb_true_iff. destruct Himg as [Hd | Hx].
    - left. now apply String.eqb_eq.
    - right. now apply image_regex_test_iff. }
  now rewrite Ht.
Qed.

(** C10. [isImageRequest] returns a boolean for every request and every
    behaviour of the URL parser: it never throws and leaves the world as it
    was.  When the destination is not [image] and [new URL] throws on the
    request's URL, the exception is caught and the result is [false]. *)
Theorem C10_isImageRequest_total
    (E : Env) (request : Request) (w : World) :
  (exists b : bool, isImageRequest E request w = (Fulfilled b, w)) /\
  (destination request <> "image" ->
   URL_parse E (url request) = None ->
   isImageRequest E request w = (Fulfilled false, w)).
Proof.
  rewrite isImageRequest_pure. split.
  - eexists. reflexivity.
  - intros Hd Hu. rewrite Hu. apply String.eqb_neq in Hd. now rewrite Hd.
Qed.

(* ================================================================== *)
(** * A sequence of puts on one cache *)

Section PutAll.

Implicit Types (c : Cache) (l : list (string * Response)) (k : string).

Lemma cache_put_all_cons (e : string * Response) l c :
  cache_put_all (e :: l) c = cache_put_all l (cache_replace (fst e) (snd e) c).
Proof. reflexivity. Qed.

(** A put leaves the keys without repetition. *)
Lemma cache_replace_NoDup k (r : Response) c :
  NoDup (cache_keys c) -> NoDup (cache_keys (cache_replace k r c)).
Proof.
  intros Hc. unfold cache_keys, cache_replace. rewrite map_app. simpl.
  apply NoDup_app.
  - clear -Hc. induction c as [|[k' r'] c IH]; simpl; [constructor|].
    inversion Hc; subst. destruct (negb (k' =? k)); simpl; auto.
    constructor; auto. intros Hin. apply H1.
    apply in_map_iff in Hin. destruct Hin as [x [Hx Hin]].
    apply filter_In in Hin. apply in_map_iff. exists x. tauto.
  - repeat constructor. simpl. tauto.
  - intros x Hin [Hx|[]]. subst x.
    apply in_map_iff in Hin. destruct Hin as [[k' r'] [Hx Hin]].
    apply filter_In in Hin. simpl in *. subst k'.
    destruct Hin as [_ Hin]. rewrite String.eqb_refl in Hin. discriminate.
Qed.

Lemma cache_put_all_NoDup l c :
  NoDup (cache_keys c) -> NoDup (cache_keys (cache_put_all l c)).
Proof.
  revert c. induction l as [|e l IH]; intros c Hc; [exact Hc|].
  rewrite cache_put_all_cons. apply IH. now apply cache_replace_NoDup.
Qed.

(** Puts under other keys do not change what a key holds. *)
Lemma cache_match_put_all_other k l c :
  ~ In k (map fst l) ->
  cache_match k (cache_put_all l c) = cache_match k c.
Proof.
  revert c. induction l as [|[k' r'] l IH]; intros c Hk; [reflexivity|].
  rewrite cache_put_all_cons. simpl in *.
  rewrite IH by tauto. apply cache_match_replace_other. intros ->. tauto.
Qed.

(** A key written with one response only holds that response at the end. *)
Lemma cache_match_put_all_same k (r : Response) l c :
  In (k, r) l ->
  (forall r', In (k, r') l -> r' = r) ->
  cache_match k (cache_put_all l c) = Some r.
Proof.
  revert c. induction l as [|[k' r'] l IH]; intros c Hin Hsame; [easy|].
  rewrite cache_put_all_cons. simpl fst. simpl snd.
  destruct (Str.mem k (map fst l)) eqn:Hmem.
  - apply mem_In in Hmem. apply in_map_iff in Hmem.
    destruct Hmem as [[k2 r2] [Hk2 Hin2]]. simpl in Hk2. subst k2.
    assert (r2 = r) by (apply Hsame; now right). subst r2.
    apply IH; [exact Hin2|]. intros r3 H3. apply Hsame. now right.
  - apply mem_false_not_In in Hmem.
    rewrite cache_match_put_all_other by exact Hmem.
    destruct Hin as [Heq | Hin].
    + inversion Heq; subst. apply cache_match_replace_same.
    + exfalso. apply Hmem. apply in_map_iff. now exists (k, r).
Qed.

Lemma filter_filter_and {A} (f g : A -> bool) (xs : list A) :
  filter f (filter g xs) = filter (fun x => g x && f x) xs.
Proof.
  induction xs as [|x xs IH]; simpl; [easy|].
  destruct (g x); simpl; [destruct (f x)|]; now rewrite IH.
Qed.



Lemma filter_nil_when {A} (f : A -> bool) (xs : list A) :
  (forall x, In x xs -> f x = false) -> filter f xs = [].
Proof.
  induction xs as [|x xs IH]; simpl; intros H; [easy|].
  rewrite (H x) by now left. apply IH. intros y Hy. apply H. now right.
Qed.


End PutAll.

(* ================================================================== *)
(** * The install listener *)


Lemma storage_update_id (name : string) (s : CacheStorage) :
  storage_update name (fun c => c) s = s.
Proof.
  unfold storage_update. rewrite <- (map_id s) at 2. apply map_ext.
  intros [n c]. simpl. now destruct (n =? name).
Qed.

Lemma storage_update_compose (name : string) (f g : Cache -> Cache)
    (s : CacheStorage) :
  storage_update name f (storage_update name g s) =
  storage_update name (fun c => f (g c)) s.
Proof.
  unfold storage_update. rewrite map_map. apply map_ext. intros [n c]. simpl.
  destruct (n =? name) eqn:H; simpl; now rewrite H.
Qed.

Lemma storage_open_has (name : string) (s : CacheStorage) :
  storage_has name (storage_open name s) = true.
Proof.
  apply storage_has_get. rewrite storage_get_open. eauto.
Qed.


Section InstallPhase.

Variable E : Env.

Lemma resolve_inj (a b : string) : resolve E a = resolve E b -> a = b.
Proof. apply append_inj_l. Qed.

(** When every asset can be added, the bulk attempt collects exactly the
    entries that the single adds would write, and nothing is logged. *)
Lemma fetch_all_inr (assets : list string) (entries : list (string * Response)) :
  fetch_all E assets = inr entries ->
  entries = salvaged E assets /\ add_warnings E assets = [].
Proof.
  revert entries. induction assets as [|a assets IH]; simpl; intros entries H.
  - inversion H. auto.
  - destruct (add_fetch E a) as [e|r]; [discriminate|].
    destruct (fetch_all E assets) as [e|l]; [discriminate|].
    inversion H; subst. destruct (IH l eq_refl) as [-> ->]. auto.
Qed.

(** When the bulk attempt cannot collect its responses, one of the assets
    cannot be added. *)
Lemma fetch_all_inl (assets : list string) (err : JsError) :
  fetch_all E assets = inl err ->
  exists a, In a assets /\ add_fetch E a = inl err.
Proof.
  induction assets as [|a assets IH]; simpl; intros H; [discriminate|].
  destruct (add_fetch E a) as [e|r] eqn:Ha.
  - inversion H; subst. exists a. auto.
  - destruct (fetch_all E assets) as [e|l]; [|discriminate].
    inversion H; subst. destruct (IH eq_refl) as [b [Hb1 Hb2]].
    exists b. auto.
Qed.

Lemma salvaged_In (assets : list string) (k : string) (r : Response) :
  In (k, r) (salvaged E assets) <->
  exists a, In a assets /\ k = resolve E a /\ add_fetch E a = inr r.
Proof.
  induction assets as [|a assets IH]; simpl.
  - split; [easy | intros [a [[] _]]].
  - destruct (add_fetch E a) as [e|r0] eqn:Ha; simpl; rewrite IH; split.
    + intros [b [H1 H2]]. exists b. auto.
    + intros [b [[->|H1] [H2 H3]]]; [congruence|]. exists b. auto.
    + intros [Heq | [b [H1 H2]]].
      * inversion Heq; subst. exists a. auto.
      * exists b. auto.
    + intros [b [[->|H1] [H2 H3]]].
      * left. congruence.
      * right. exists b. auto.
Qed.

Lemma add_warnings_In (assets : list string) (a : string) (e : JsError) :
  In a assets -> add_fetch E a = inl e ->
  In (WarnFailedToCache a e) (add_warnings E assets).
Proof.
  induction assets as [|b assets IH]; simpl; [easy|].
  intros [->|Hin] Ha.
  - rewrite Ha. now left.
  - destruct (add_fetch E b); [right|]; now apply IH.
Qed.

(** Lines 48-56: the single adds.  Every task runs to its end, none
    rejects, the adds that succeed write their entry and the others log
    their warning. *)
Lemma salvage_run (cache : string) (assets : list string) (w : World) :
  promise_all
    (map (fun asset =>
            try_catch (cache_add E cache asset)
                      (fun e => warn (WarnFailedToCache asset e)))
         assets) w =
  (Fulfilled (map (fun _ => tt) assets),
   {| caches :=
        storage_update cache (cache_put_all (salvaged E assets)) (caches w);
      console := (console w ++ add_warnings E assets)%list;
      unhandled := unhandled w;
      skipped_waiting := skipped_waiting w |}).
Proof.
  revert w. induction assets as [|a assets IH]; intros w.
  - simpl. unfold ret. rewrite app_nil_r.
    change (cache_put_all []) with (fun c : Cache => c).
    rewrite storage_update_id. now destruct w.
  - simpl. unfold try_catch at 1, cache_add at 1, warn at 1.
    destruct (add_fetch E a) as [e|r]; rewrite IH; simpl.
    + now rewrite <- app_assoc.
    + rewrite storage_update_compose. reflexivity.
Qed.

(** The install listener never rejects.  It leaves the current cache open
    with the entries of every asset that could be added written in the
    order of the manifest; nothing is logged when the bulk attempt went
    through, and otherwise one warning for the bulk attempt and one for
    every asset that could not be added. *)
Lemma install_run (w : World) :
  install E w =
  (Fulfilled tt,
   {| caches :=
        storage_update (CACHE_NAME E)
          (cache_put_all (salvaged E (ASSETS_TO_CACHE E)))
          (storage_open (CACHE_NAME E) (caches w));
      console :=
        match bulk_attempt E w with
        | Fulfilled _ => console w
        | Rejected err =>
            (console w ++ WarnAddAllFailed err
               :: add_warnings E (ASSETS_TO_CACHE E))%list
        end;
      unhandled := unhandled w;
      skipped_waiting := true |}).
Proof.
  unfold bulk_attempt, install_opened, install.
  unfold bind at 1, skipWaiting at 1. unfold bind at 1, caches_open at 1.
  unfold try_catch at 1, cache_addAll. simpl.
  destruct (fetch_all E (ASSETS_TO_CACHE E)) as [err|entries] eqn:Hall.
  - simpl. unfold bind at 1, warn at 1. unfold bind at 1.
    rewrite salvage_run. simpl. unfold ret. now rewrite <- app_assoc.
  - destruct (fetch_all_inr _ _ Hall) as [-> Hw].
    destruct (Str.nodupb _); simpl.
    + reflexivity.
    + unfold bind at 1, warn at 1. unfold bind at 1.
      rewrite salvage_run. simpl. unfold ret. now rewrite <- app_assoc.
Qed.

(** The current cache after install. *)
Lemma install_current_cache (w : World) :
  storage_get (CACHE_NAME E) (caches (snd (install E w))) =
  Some (cache_put_all (salvaged E (ASSETS_TO_CACHE E))
          match storage_get (CACHE_NAME E) (caches w) with
          | Some c => c
          | None => []
          end).
Proof.
  rewrite install_run. simpl.
  now rewrite storage_get_update, storage_get_open.
Qed.

Lemma current_entry_install (key : string) (w : World) :
  current_entry E key (snd (install E w)) =
  cache_match key
    (cache_put_all (salvaged E (ASSETS_TO_CACHE E))
       match storage_get (CACHE_NAME E) (caches w) with
       | Some c => c
       | None => []
       end).
Proof.
  unfold current_entry. now rewrite install_current_cache.
Qed.

(** An asset that can be added is in the cache after install, whatever
    happens to the other assets. *)
Lemma install_keeps_success (a : string) (r : Response) (w : World) :
  In a (ASSETS_TO_CACHE E) ->
  add_fetch E a = inr r ->
  current_entry E (resolve E a) (snd (install E w)) = Some r.
Proof.
  intros Hin Ha. rewrite current_entry_install.
  apply cache_match_put_all_same.
  - apply salvaged_In. exists a. auto.
  - intros r' Hr'. apply salvaged_In in Hr'.
    destruct Hr' as [b [_ [Hb1 Hb2]]]. apply resolve_inj in Hb1. subst b.
    congruence.
Qed.

(** An asset that cannot be added leaves its key as it was. *)
Lemma install_skips_failure (a : string) (e : JsError) (w : World) :
  add_fetch E a = inl e ->
  current_entry E (resolve E a) (snd (install E w)) =
  current_entry E (resolve E a) w.
Proof.
  intros Ha. rewrite current_entry_install.
  rewrite cache_match_put_all_other.
  - unfold current_entry. now destruct (storage_get _ _).
  - intros Hin. apply in_map_iff in Hin. destruct Hin as [[k r] [Hk Hin]].
    simpl in Hk. subst k. apply salvaged_In in Hin.
    destruct Hin as [b [_ [Hb1 Hb2]]]. apply resolve_inj in Hb1. subst b.
    congruence.
Qed.

(** The single adds of line 49 run concurrently.  Whatever the order in
    which they complete, every key of the current cache holds the same
    response at the end. *)
Lemma salvage_order_irrelevant (assets assets' : list string)
    (key : string) (c : Cache) :
  Permutation assets assets' ->
  cache_match key (cache_put_all (salvaged E assets') c) =
  cache_match key (cache_put_all (salvaged E assets) c).
Proof.
  intros Hperm.
  assert (Hone : forall l r r', In (key, r) (salvaged E l) ->
                   forall l', In (key, r') (salvaged E l') -> r' = r).
  { intros l r r' H l' H'. apply salvaged_In in H, H'.
    destruct H as [a [_ [Ha1 Ha2]]], H' as [b [_ [Hb1 Hb2]]].
    assert (a = b) by (apply resolve_inj; congruence). congruence. }
  destruct (Str.mem key (map fst (salvaged E assets))) eqn:Hm.
  - apply mem_In, in_map_iff in Hm. destruct Hm as [[k r] [Hk Hin]].
    simpl in Hk. subst k.
    assert (Hin' : In (key, r) (salvaged E assets')).
    { apply salvaged_In in Hin. destruct Hin as [a [Ha H]].
      apply salvaged_In. exists a. split; [|exact H].
      now apply (Permutation_in _ Hperm). }
    rewrite (cache_match_put_all_same key r _ c Hin).
    + apply cache_match_put_all_same; [exact Hin'|].
      intros r' Hr'. exact (Hone _ _ _ Hin' _ Hr').
    + intros r' Hr'. exact (Hone _ _ _ Hin _ Hr').
  - apply mem_false_not_In in Hm.
    rewrite (cache_match_put_all_other key _ c Hm).
    apply cache_match_put_all_other. intros Hin. apply Hm.
    apply in_map_iff in Hin. destruct Hin as [[k r] [Hk Hin]].
    simpl in Hk. subst k. apply in_map_iff. exists (key, r). split; [easy|].
    apply salvaged_In in Hin. destruct Hin as [a [Ha H]].
    apply salvaged_In. exists a. split; [|exact H].
    apply (Permutation_in _ (Permutation_sym Hperm)). exact Ha.
Qed.

End InstallPhase.

Lemma fetch_all_each (E : Env) (assets : list string)
    (entries : list (string * Response)) (a : string) :
  fetch_all E assets = inr entries ->
  In a assets ->
  exists r, add_fetch E a = inr r.
Proof.
  revert entries. induction assets as [|b assets IH]; simpl; [easy|].
  intros entries H Hin.
  destruct (add_fetch E b) as [e|r] eqn:Hb; [discriminate|].
  destruct (fetch_all E assets) as [e|l]; [discriminate|].
  destruct Hin as [->|Hin]; [eauto | exact (IH l eq_refl Hin)].
Qed.

Lemma add_fetch_inr (E : Env) (a : string) (r : Response) :
  add_fetch E a = inr r ->
  net E (new_Request E a) = NetOk r /\ ok r = true /\ put_accepts r = true.
Proof.
  unfold add_fetch. destruct (net E (new_Request E a)) as [r0|]; [|easy].
  destruct (ok r0) eqn:Hok, (put_accepts r0) eqn:Hp; simpl; try easy.
  intros H. inversion H; subst. auto.
Qed.

(** [cache.addAll] is all or nothing: when it rejects, nothing has been
    written. *)
Lemma cache_addAll_all_or_nothing (E : Env) (cache : string)
    (assets : list string) (w : World) (err : JsError) :
  fst (cache_addAll E cache assets w) = Rejected err ->
  snd (cache_addAll E cache assets w) = w.
Proof.
  unfold cache_addAll. destruct (fetch_all E assets) as [e|entries]; [easy|].
  destruct (Str.nodupb (map fst entries)); [discriminate | easy].
Qed.

(** A message that is not the command [SKIP_WAITING] changes nothing. *)
Lemma message_listener_ignores (data : option (option string)) (w : World) :
  data <> Some (Some "SKIP_WAITING") ->
  message_listener data w = (Fulfilled tt, w).
Proof.
  intros Hd. destruct data as [[t|]|]; simpl; try reflexivity.
  destruct (t =? "SKIP_WAITING") eqn:Ht; [|reflexivity].
  apply String.eqb_eq in Ht. congruence.
Qed.

Lemma bulk_attempt_fulfilled (E : Env) (w : World) :
  bulk_attempt E w = Fulfilled tt ->
  exists entries, fetch_all E (ASSETS_TO_CACHE E) = inr entries.
Proof.
  unfold bulk_attempt, cache_addAll.
  destruct (fetch_all E (ASSETS_TO_CACHE E)) as [e|l]; [easy | eauto].
Qed.

(** C6. The install listener first tries [cache.addAll] on the whole
    manifest.  When that call goes through, every asset of the manifest is
    in the current cache with the response of the network, and nothing is
    logged.  When it rejects, the rejection is logged and every asset is
    added on its own: an asset that can be added is in the current cache
    afterwards whatever happens to the others, and an asset that cannot be
    added has its warning logged and leaves its key as it was.  In both
    cases the promise given to [waitUntil] is fulfilled. *)
Theorem C6_install_population (E : Env) (w : World) :
  fst (install E w) = Fulfilled tt /\
  (bulk_attempt E w = Fulfilled tt ->
   console (snd (install E w)) = console w /\
   forall a, In a (ASSETS_TO_CACHE E) ->
     exists r,
       net E (new_Request E a) = NetOk r /\
       current_entry E (resolve E a) (snd (install E w)) = Some r) /\
  (forall err, bulk_attempt E w = Rejected err ->
   In (WarnAddAllFailed err) (console (snd (install E w))) /\
   forall a, In a (ASSETS_TO_CACHE E) ->
     (forall r, add_fetch E a = inr r ->
        current_entry E (resolve E a) (snd (install E w)) = Some r) /\
     (forall e, add_fetch E a = inl e ->
        In (WarnFailedToCache a e) (console (snd (install E w))) /\
        current_entry E (resolve E a) (snd (install E w)) =
        current_entry E (resolve E a) w)).
Proof.
  split; [now rewrite install_run|]. split.
  - intros Hb. split.
    + rewrite install_run. simpl. now rewrite Hb.
    + intros a Hin. destruct (bulk_attempt_fulfilled E w Hb) as [l Hl].
      destruct (fetch_all_each E _ l a Hl Hin) as [r Hr].
      exists r. split.
      * now apply add_fetch_inr.
      * now apply install_keeps_success.
  - intros err Hb. split.
    + rewrite install_run. simpl. rewrite Hb.
      apply in_or_app. right. now left.
    + intros a Hin. split.
      * intros r Hr. now apply install_keeps_success.
      * intros e He. split.
        -- rewrite install_run. simpl. rewrite Hb.
           apply in_or_app. right. right. now apply add_warnings_In.
        -- now apply install_skips_failure with (e := e).
Qed.

(** The scenario of the manifest with one missing asset: the bulk attempt
    rejects, the two assets that exist are cached, the third is logged,
    and the cache that was created has exactly these two entries. *)
Example install_shell_scenario :
  install Demo.shell_env Demo.fresh =
  (Fulfilled tt,
   {| caches :=
        [("phone-keypad-v2",
          [("https://app.example/", Demo.page "<html>");
           ("https://app.example/app.js", Demo.page "js")])];
      console :=
        [WarnAddAllFailed (TypeError "Cache.add: bad response");
         WarnFailedToCache "/missing.png"
           (TypeError "Cache.add: bad response")];
      unhandled := [];
      skipped_waiting := true |}).
Proof. reflexivity. Qed.


(* ================================================================== *)
(** * The activate listener *)

Section ActivatePhase.

Variable E : Env.

Lemma set_nth_middle {A} (x y : A) (l1 l2 : list A) :
  set_nth (List.length l1) y (l1 ++ x :: l2)%list = (l1 ++ y :: l2)%list.
Proof.
  unfold set_nth. induction l1 as [|a l1 IH]; [reflexivity|].
  simpl. f_equal. exact IH.
Qed.

Lemma set_nth_split {A} (i : nat) (x y : A) (l : list A) :
  nth_error l i = Some x ->
  exists l1 l2,
    l = (l1 ++ x :: l2)%list /\ set_nth i y l = (l1 ++ y :: l2)%list /\
    List.length l1 = i.
Proof.
  intros H. destruct (nth_error_split l i H) as [l1 [l2 [Hl Hlen]]].
  exists l1, l2. split; [exact Hl|]. split; [|exact Hlen].
  subst l i. apply set_nth_middle.
Qed.

Lemma begin_inv (stores : CacheStorage) :
  ActivateInv E stores (activate_begin E stores).
Proof.
  unfold activate_begin. constructor; simpl.
  - rewrite map_map. simpl. apply map_id.
  - unfold awaited.
    induction (stale_names E (storage_names stores)) as [|k l IH]; simpl;
      [reflexivity | now rewrite IH].
  - destruct (stale_names E (storage_names stores)); [reflexivity | easy].
  - discriminate.
  - discriminate.
  - symmetry. apply forallb_filter_id, forallb_forall. intros nc _.
    apply negb_true_iff. unfold deleted_in.
    induction (stale_names E (storage_names stores)) as [|k l IH]; simpl;
      [reflexivity|]. now rewrite andb_false_r.
Qed.

Lemma deleted_in_app (l1 l2 : list (string * PromiseState)) (name : string) :
  deleted_in (l1 ++ l2) name = deleted_in l1 name || deleted_in l2 name.
Proof. apply existsb_app. Qed.

Lemma awaited_app (l1 l2 : list (string * PromiseState)) :
  awaited (l1 ++ l2) = awaited l1 + awaited l2.
Proof. unfold awaited. now rewrite filter_app, length_app. Qed.

(** The list around the deletion that settles, as three lists. *)
Ltac middle_as_list l1 x l2 :=
  change (l1 ++ x :: l2)%list with (l1 ++ [x] ++ l2)%list.

Lemma step_inv (stores : CacheStorage) (a : Action) (s s' : ActivateState) :
  ActivateInv E stores s ->
  activate_step a s = Some s' ->
  ActivateInv E stores s'.
Proof.
  intros [Hn Hr Ha Hc Hl Hs] Hstep.
  destruct a as [i [|]|]; simpl in Hstep.
  - (* a deletion is fulfilled *)
    destruct (nth_error (deletions s) i) as [[k p]|] eqn:Hi; [|discriminate].
    destruct p; try discriminate. inversion Hstep; subst s'; clear Hstep.
    destruct (set_nth_split i (k, Pending) (k, FulfilledP) _ Hi)
      as [l1 [l2 [Hd [Hd' _]]]].
    constructor; simpl; rewrite ?Hd'.
    + rewrite <- Hn, Hd, !map_app. reflexivity.
    + rewrite Hr, Hd.
      middle_as_list l1 (k, Pending) l2.
      middle_as_list l1 (k, FulfilledP) l2.
      rewrite !awaited_app. unfold awaited at 2 5. simpl. lia.
    + destruct (is_pending (all_deleted s) && (remaining s - 1 =? 0)%nat) eqn:Hb.
      * intros _. apply andb_true_iff in Hb. now apply Nat.eqb_eq.
      * intros Hf. rewrite (Ha Hf). reflexivity.
    + intros Hcl. specialize (Hc Hcl). rewrite Hc. reflexivity.
    + exact Hl.
    + rewrite Hs, Hd. unfold storage_delete. rewrite filter_filter_and.
      apply filter_ext. intros [n c]. simpl.
      middle_as_list l1 (k, Pending) l2.
      middle_as_list l1 (k, FulfilledP) l2.
      rewrite !deleted_in_app. unfold deleted_in at 2 5. simpl.
      rewrite (String.eqb_sym k n).
      destruct (deleted_in l1 n), (deleted_in l2 n), (n =? k); reflexivity.
  - (* a deletion is rejected *)
    destruct (nth_error (deletions s) i) as [[k p]|] eqn:Hi; [|discriminate].
    destruct p; try discriminate. inversion Hstep; subst s'; clear Hstep.
    destruct (set_nth_split i (k, Pending) (k, RejectedP) _ Hi)
      as [l1 [l2 [Hd [Hd' _]]]].
    constructor; simpl; rewrite ?Hd'.
    + rewrite <- Hn, Hd, !map_app. reflexivity.
    + rewrite Hr, Hd.
      middle_as_list l1 (k, Pending) l2.
      middle_as_list l1 (k, RejectedP) l2.
      rewrite !awaited_app. reflexivity.
    + destruct (all_deleted s); simpl; try discriminate. intros _. now apply Ha.
    + intros Hcl. specialize (Hc Hcl). rewrite Hc. reflexivity.
    + destruct (all_deleted s); simpl; try discriminate; exact Hl.
    + rewrite Hs, Hd. apply filter_ext. intros [n c]. simpl.
      middle_as_list l1 (k, Pending) l2.
      middle_as_list l1 (k, RejectedP) l2.
      rewrite !deleted_in_app. unfold deleted_in at 2 5. simpl.
      now rewrite !andb_false_r.
  - (* the clients are claimed *)
    destruct (is_fulfilled (all_deleted s) && negb (claimed s)) eqn:Hb;
      [|discriminate].
    inversion Hstep; subst s'; clear Hstep.
    apply andb_true_iff in Hb. destruct Hb as [Hf _].
    constructor; simpl; auto.
    intros _. now destruct (all_deleted s).
Qed.

Lemma run_inv (stores : CacheStorage) (schedule : list Action)
    (s s' : ActivateState) :
  ActivateInv E stores s ->
  activate_run schedule s = Some s' ->
  ActivateInv E stores s'.
Proof.
  revert s. induction schedule as [|a schedule IH]; simpl; intros s Hinv Hrun.
  - now inversion Hrun; subst.
  - destruct (activate_step a s) as [s1|] eqn:Hstep; [|discriminate].
    eapply IH; [|exact Hrun]. eapply step_inv; eauto.
Qed.

(** Every state the listener reaches satisfies the invariant. *)
Lemma reachable_inv (stores : CacheStorage) (schedule : list Action)
    (s : ActivateState) :
  activate_run schedule (activate_begin E stores) = Some s ->
  ActivateInv E stores s.
Proof. apply run_inv, begin_inv. Qed.

End ActivatePhase.

Lemma awaited_zero (ds : list (string * PromiseState)) :
  awaited ds = 0 -> Forall (fun d => snd d = FulfilledP) ds.
Proof.
  unfold awaited. induction ds as [|[k p] ds IH]; simpl; intros H.
  - constructor.
  - destruct p; simpl in H; try discriminate. constructor; auto.
Qed.

Lemma deleted_in_all_fulfilled (ds : list (string * PromiseState))
    (name : string) :
  Forall (fun d => snd d = FulfilledP) ds ->
  deleted_in ds name = Str.mem name (map fst ds).
Proof.
  unfold deleted_in. induction 1 as [|[k p] ds Hp _ IH]; simpl; [easy|].
  simpl in Hp. subst p. simpl. rewrite andb_true_r, IH.
  now rewrite (String.eqb_sym k name).
Qed.

Lemma stale_names_In (E : Env) (keys : list string) (k : string) :
  In k (stale_names E keys) <-> In k keys /\ k <> CACHE_NAME E.
Proof.
  unfold stale_names. rewrite filter_In, negb_true_iff, String.eqb_neq.
  tauto.
Qed.

(** Once every deletion is fulfilled, what is left of the storage is what
    was stored under the current name. *)
Lemma evicted_storage (E : Env) (stores : CacheStorage)
    (ds : list (string * PromiseState)) :
  map fst ds = stale_names E (storage_names stores) ->
  Forall (fun d => snd d = FulfilledP) ds ->
  filter (fun nc => negb (deleted_in ds (fst nc))) stores =
  filter (fun nc => fst nc =? CACHE_NAME E) stores.
Proof.
  intros Hn Hf. apply filter_ext_in. intros [n c] Hin. simpl.
  rewrite (deleted_in_all_fulfilled ds n Hf), Hn.
  destruct (n =? CACHE_NAME E) eqn:Hc.
  - apply negb_true_iff, mem_false_not_In. intros H.
    apply stale_names_In in H. apply String.eqb_eq in Hc. tauto.
  - apply negb_false_iff, mem_In, stale_names_In.
    apply String.eqb_neq in Hc. split; [|exact Hc].
    unfold storage_names. apply in_map_iff. now exists (n, c).
Qed.

Lemma current_only_absent (name : string) (stores : CacheStorage) :
  ~ In name (storage_names stores) ->
  filter (fun nc => fst nc =? name) stores = [].
Proof.
  intros H. apply filter_nil_when. intros [n c] Hin. simpl.
  apply String.eqb_neq. intros ->. apply H.
  unfold storage_names. apply in_map_iff. now exists (name, c).
Qed.

Lemma current_only_present (name : string) (stores : CacheStorage) :
  NoDup (storage_names stores) ->
  In name (storage_names stores) ->
  storage_names (filter (fun nc => fst nc =? name) stores) = [name].
Proof.
  induction stores as [|[n c] stores IH]; simpl; [easy|].
  intros Hnd Hin. inversion Hnd as [|? ? Hn Hnd']; subst.
  destruct (n =? name) eqn:Hc.
  - apply String.eqb_eq in Hc. subst n. simpl.
    now rewrite (current_only_absent name stores Hn).
  - apply String.eqb_neq in Hc. destruct Hin as [Heq|Hin]; [congruence|].
    now apply IH.
Qed.

(** C8. In every execution of the activate listener, under every order in
    which the deletions settle and whether they succeed or fail: in a
    state in which the clients have been claimed, or in which the callback
    that claims them can run, no deletion is pending; every one of them
    has been fulfilled, and none of the stale caches exists any more. *)
Theorem C8_eviction_before_claim
    (E : Env) (stores : CacheStorage) (schedule : list Action)
    (s : ActivateState) :
  activate_run schedule (activate_begin E stores) = Some s ->
  claimed s = true \/ activate_step RunThen s <> None ->
  map fst (deletions s) = stale_names E (storage_names stores) /\
  Forall (fun d => snd d = FulfilledP) (deletions s) /\
  forall k, In k (stale_names E (storage_names stores)) ->
            ~ In k (storage_names (act_caches s)).
Proof.
  intros Hrun Hclaim.
  destruct (reachable_inv E stores schedule s Hrun) as [Hn Hr Ha Hc Hl Hs].
  assert (Hall : all_deleted s = FulfilledP).
  { destruct Hclaim as [Hcl | Hen]; [now apply Hc|].
    simpl in Hen. destruct (all_deleted s); simpl in Hen; congruence. }
  assert (Hf : Forall (fun d => snd d = FulfilledP) (deletions s)).
  { apply awaited_zero. rewrite <- Hr. now apply Ha. }
  split; [exact Hn|]. split; [exact Hf|].
  intros k Hk Hin. rewrite Hs, (evicted_storage E stores _ Hn Hf) in Hin.
  unfold storage_names in Hin. apply in_map_iff in Hin.
  destruct Hin as [[n c] [Heq Hin]]. simpl in Heq. subst n.
  apply filter_In in Hin. destruct Hin as [_ Hin]. simpl in Hin.
  apply String.eqb_eq in Hin. apply stale_names_In in Hk. tauto.
Qed.

(** Nothing is enabled once the clients are claimed: the callback of line
    69 is the last step of every execution. *)
Lemma nothing_after_claim
    (E : Env) (stores : CacheStorage) (schedule : list Action)
    (s : ActivateState) (a : Action) :
  activate_run schedule (activate_begin E stores) = Some s ->
  claimed s = true ->
  activate_step a s = None.
Proof.
  intros Hrun Hcl.
  destruct (reachable_inv E stores schedule s Hrun) as [_ Hr Ha Hc _ _].
  assert (Hf : Forall (fun d => snd d = FulfilledP) (deletions s)).
  { apply awaited_zero. rewrite <- Hr. auto. }
  destruct a as [i b|]; simpl.
  - destruct (nth_error (deletions s) i) as [[k p]|] eqn:Hi.
    + apply nth_error_In in Hi. rewrite Forall_forall in Hf.
      specialize (Hf _ Hi). simpl in Hf. subst p. now destruct b.
    + now destruct b.
  - rewrite Hcl. now rewrite andb_false_r.
Qed.

(** The orderly schedule can always be run to its end: the deletions that
    are still pending settle one after the other, and the clients are
    claimed. *)
Lemma orderly_from (done todo : list string) (s : ActivateState) :
  deletions s =
    (map (fun k => (k, FulfilledP)) done ++ map (fun k => (k, Pending)) todo)%list ->
  remaining s = List.length todo ->
  all_deleted s = match todo with [] => FulfilledP | _ => Pending end ->
  claimed s = false ->
  exists s',
    activate_run
      (map (fun i => DeleteSettles i true)
           (seq (List.length done) (List.length todo)) ++ [RunThen])%list s
      = Some s' /\
    claimed s' = true /\ lifetime s' = FulfilledP.
Proof.
  revert done s. induction todo as [|k todo IH]; intros done s Hd Hr Ha Hc.
  - simpl. rewrite Ha, Hc. simpl. eexists. split; [reflexivity|]. auto.
  - simpl seq. simpl map. simpl activate_run.
    assert (Hi : nth_error (deletions s) (List.length done)
                 = Some (k, Pending)).
    { rewrite Hd, nth_error_app2 by (rewrite length_map; lia).
      rewrite length_map, Nat.sub_diag. reflexivity. }
    rewrite Hi.
    specialize (IH (done ++ [k])%list).
    rewrite length_app, Nat.add_1_r in IH. apply IH; simpl.
    + rewrite Hd. simpl.
      replace (List.length done)
        with (List.length (map (fun k0 : string => (k0, FulfilledP)) done))
        by apply length_map.
      rewrite set_nth_middle, map_app, <- app_assoc. reflexivity.
    + rewrite Hr. simpl. lia.
    + rewrite Ha, Hr. simpl. rewrite Nat.sub_0_r.
      destruct todo; reflexivity.
    + exact Hc.
Qed.

(** The activate listener can complete, whatever the storage it starts
    from. *)
Lemma activate_completes (E : Env) (stores : CacheStorage) :
  exists s,
    activate_run
      (orderly_schedule
         (List.length (stale_names E (storage_names stores))))
      (activate_begin E stores) = Some s /\
    claimed s = true /\ lifetime s = FulfilledP.
Proof.
  unfold orderly_schedule.
  apply (orderly_from [] (stale_names E (storage_names stores))).
  - reflexivity.
  - reflexivity.
  - reflexivity.
  - reflexivity.
Qed.

(** C3 (amended). For every storage whose names are distinct, and
    whatever the order in which the deletions settle: when the activate
    listener of version V2 has completed, what is left of the storage is
    exactly what was stored under the name of V2.  Every cache of another
    name has been deleted, the cache of any other version V1 among them;
    exactly one cache exists if the cache of V2 existed when the listener
    began, and none exists otherwise, the listener creating no cache. *)
Theorem C3_activate_keeps_current_only
    (E : Env) (stores : CacheStorage) (schedule : list Action)
    (s : ActivateState) :
  NoDup (storage_names stores) ->
  activate_run schedule (activate_begin E stores) = Some s ->
  lifetime s = FulfilledP ->
  act_caches s = filter (fun nc => fst nc =? CACHE_NAME E) stores /\
  (forall V1, V1 <> CACHE_VERSION E ->
     ~ In (cache_name_of V1) (storage_names (act_caches s))) /\
  (forall n, n <> CACHE_NAME E -> ~ In n (storage_names (act_caches s))) /\
  (In (CACHE_NAME E) (storage_names stores) ->
     storage_names (act_caches s) = [CACHE_NAME E]) /\
  (~ In (CACHE_NAME E) (storage_names stores) -> act_caches s = []).
Proof.
  intros Hnd Hrun Hdone.
  destruct (reachable_inv E stores schedule s Hrun) as [Hn Hr Ha Hc Hl Hs].
  assert (Hf : Forall (fun d => snd d = FulfilledP) (deletions s)).
  { apply awaited_zero. rewrite <- Hr. auto. }
  assert (Hleft : act_caches s
                  = filter (fun nc => fst nc =? CACHE_NAME E) stores).
  { rewrite Hs. now apply evicted_storage. }
  assert (Hother : forall n, n <> CACHE_NAME E ->
                     ~ In n (storage_names (act_caches s))).
  { intros n Hne Hin. rewrite Hleft in Hin. unfold storage_names in Hin.
    apply in_map_iff in Hin. destruct Hin as [[m c] [Heq Hin]].
    simpl in Heq. subst m. apply filter_In in Hin. destruct Hin as [_ Hin].
    simpl in Hin. now apply String.eqb_eq in Hin. }
  split; [exact Hleft|]. split; [|split; [exact Hother|split]].
  - intros V1 HV. apply Hother. intros Heq. apply HV.
    now apply cache_name_of_inj.
  - intros Hin. rewrite Hleft. now apply current_only_present.
  - intros Hnin. rewrite Hleft. now apply current_only_absent.
Qed.

(* ================================================================== *)
(** * What the fetch listener writes and logs *)

(** On the cache-first path the storage changes only for a response of
    status 200 to a request on the worker's own origin (line 108). *)
Lemma cache_first_store_guard
    (E : Env) (req : Request) (reqUrl : URL) (w : World) :
  caches (snd (cache_first_strategy E req reqUrl w)) <> caches w ->
  exists r,
    net E req = NetOk r /\ status r = 200%N /\
    origin reqUrl = location_origin E.
Proof.
  intros Hch.
  destruct (storage_match (url req) (caches w)) as [cached|] eqn:Hc.
  - rewrite (cache_first_hit E req reqUrl cached w Hc) in Hch. now elim Hch.
  - destruct (net E req) as [r|] eqn:Hn.
    + rewrite (cache_first_online E req reqUrl r w Hc Hn) in Hch. simpl in Hch.
      destruct (status r =? 200)%N eqn:Hs; simpl in Hch; [|now elim Hch].
      destruct (origin reqUrl =? location_origin E) eqn:Ho; [|now elim Hch].
      exists r. apply N.eqb_eq in Hs. apply String.eqb_eq in Ho. auto.
    + rewrite (cache_first_offline E req reqUrl w Hc Hn) in Hch. now elim Hch.
Qed.

(** The fetch listener never logs: the [catch] of line 119 guards a call
    that returns a promise and cannot throw, so line 121 is never run, and
    the write of line 91 has no handler at all. *)
Lemma fetch_listener_never_warns (E : Env) (req : Request) (w : World) :
  console (snd (fetch_listener E req w)) = console w.
Proof.
  unfold fetch_listener.
  destruct (negb (method req =? "GET")); [reflexivity|].
  unfold new_URL. destruct (URL_parse E (url req)) as [reqUrl|]; [|reflexivity].
  unfold ret, respondWith. destruct (is_navigation req).
  - destruct (net E req) as [r|] eqn:Hn.
    + rewrite (navigation_online E req r w Hn). simpl.
      unfold after_detached_put. now destruct (put_accepts r).
    + now rewrite (navigation_offline E req w Hn).
  - destruct (storage_match (url req) (caches w)) as [cached|] eqn:Hc.
    + now rewrite (cache_first_hit E req reqUrl cached w Hc).
    + destruct (net E req) as [r|] eqn:Hn.
      * rewrite (cache_first_online E req reqUrl r w Hc Hn). simpl.
        destruct (_ && _); [|reflexivity].
        unfold after_detached_put. now destruct (put_accepts r).
      * now rewrite (cache_first_offline E req reqUrl w Hc Hn).
Qed.

(** C2. The navigation branch stores the response of the network whatever
    its status: a navigation answered with 404 leaves the error page in the
    current cache under the key of the root document. *)
Theorem C2_navigation_stores_error_page :
  fetch_listener Demo.error_page_env Demo.nav_request Demo.fresh =
  (RespondWith (Fulfilled (Some Demo.not_found)),
   {| caches := [("phone-keypad-v2", [(Demo.root_key, Demo.not_found)])];
      console := [];
      unhandled := [];
      skipped_waiting := false |}) /\
  status Demo.not_found = 404%N.
Proof. split; reflexivity. Qed.

(** C7. A cache write that fails is not logged.  The script is fetched
    with status 200 from the worker's own origin, the Cache API refuses
    the response, and the page still gets it; but the rejection of
    [cache.put] reaches no handler: the console stays empty and the
    rejection is left unhandled. *)
Theorem C7_put_failure_not_logged :
  fetch_listener Demo.varying_env Demo.script_request Demo.fresh =
  (RespondWith (Fulfilled (Some (Demo.varying "js"))),
   {| caches := [("phone-keypad-v2", [])];
      console := [];
      unhandled := [TypeError "Cache.put: response cannot be stored"];
      skipped_waiting := false |}) /\
  put_accepts (Demo.varying "js") = false.
Proof. split; reflexivity. Qed.

(** Whether the write is accepted or refused, a response of the network
    is what the page gets. *)
Lemma live_response_delivered
    (E : Env) (req : Request) (reqUrl : URL) (r : Response) (w : World) :
  method req = "GET" ->
  URL_parse E (url req) = Some reqUrl ->
  is_navigation req = true \/ storage_match (url req) (caches w) = None ->
  net E req = NetOk r ->
  fst (fetch_listener E req w) = RespondWith (Fulfilled (Some r)).
Proof.
  intros Hm Hp Hcase Hn. rewrite (fetch_listener_get E req reqUrl w Hm Hp).
  unfold respondWith. destruct (is_navigation req) eqn:Hnav.
  - now rewrite (navigation_online E req r w Hn).
  - destruct Hcase as [Hc|Hc]; [discriminate|].
    now rewrite (cache_first_online E req reqUrl r w Hc Hn).
Qed.

(* ================================================================== *)
(** * The statements on concrete deployments *)

(** The navigation of the examples on three networks: one that answers
    with a page, one that answers with a page the Cache API refuses, and
    none. *)
Lemma C1_navigation_witness :
  (fetch_listener Demo.settings_env Demo.nav_request Demo.stocked =
     (RespondWith (Fulfilled (Some (Demo.page "<settings>"))),
      after_detached_put Demo.settings_env
        (resolve Demo.settings_env "/index.html")
        (clone (Demo.page "<settings>")) Demo.stocked) /\
   exists c,
     storage_get (CACHE_NAME Demo.settings_env)
       (caches
          (snd (fetch_listener Demo.settings_env Demo.nav_request
                  Demo.stocked)))
       = Some c /\
     cache_match (resolve Demo.settings_env "/index.html") c
       = Some (clone (Demo.page "<settings>"))) /\
  current_entry Demo.varying_nav_env
    (resolve Demo.varying_nav_env "/index.html")
    (snd (fetch_listener Demo.varying_nav_env Demo.nav_request Demo.stocked))
    = current_entry Demo.varying_nav_env
        (resolve Demo.varying_nav_env "/index.html") Demo.stocked /\
  fetch_listener Demo.offline_env Demo.nav_request Demo.stocked =
    (RespondWith (Fulfilled (Some (Demo.page "<html>"))), Demo.stocked) /\
  fetch_listener Demo.offline_env Demo.nav_request Demo.fresh =
    (RespondWith (Fulfilled None), Demo.fresh).
Proof.
  split; [|split; [|split]].
  - destruct (C1_navigation_network_first Demo.settings_env Demo.nav_request
                Demo.stocked eq_refl) as [Hon _].
    + vm_compute. discriminate.
    + reflexivity.
    + destruct (Hon (Demo.page "<settings>") eq_refl) as [Hres [Hacc _]].
      split; [exact Hres | exact (Hacc eq_refl)].
  - destruct (C1_navigation_network_first Demo.varying_nav_env
                Demo.nav_request Demo.stocked eq_refl) as [Hon _].
    + vm_compute. discriminate.
    + reflexivity.
    + destruct (Hon (Demo.varying "<settings>") eq_refl) as [_ [_ Href]].
      exact (Href eq_refl).
  - destruct (C1_navigation_network_first Demo.offline_env Demo.nav_request
                Demo.stocked eq_refl) as [_ Hoff].
    + vm_compute. discriminate.
    + reflexivity.
    + exact (Hoff eq_refl).
  - destruct (C1_navigation_network_first Demo.offline_env Demo.nav_request
                Demo.fresh eq_refl) as [_ Hoff].
    + vm_compute. discriminate.
    + reflexivity.
    + exact (Hoff eq_refl).
Defined.

(** C1 as it is stated fails on a response that the Cache API refuses.
    The navigation is answered by the network with status 200 and a
    [Vary: *] header: the page gets the live response, but the entry of the
    root document is not a copy of it; it is still the document that was
    cached before, and the rejection of [cache.put] is left unhandled. *)
Lemma C1_counterexample_refused_write :
  method Demo.nav_request = "GET" /\
  is_navigation Demo.nav_request = true /\
  net Demo.varying_nav_env Demo.nav_request
    = NetOk (Demo.varying "<settings>") /\
  fst (fetch_listener Demo.varying_nav_env Demo.nav_request Demo.stocked)
    = RespondWith (Fulfilled (Some (Demo.varying "<settings>"))) /\
  current_entry Demo.varying_nav_env Demo.root_key
    (snd (fetch_listener Demo.varying_nav_env Demo.nav_request Demo.stocked))
    = Some (Demo.page "<html>") /\
  current_entry Demo.varying_nav_env Demo.root_key
    (snd (fetch_listener Demo.varying_nav_env Demo.nav_request Demo.stocked))
    <> Some (clone (Demo.varying "<settings>")) /\
  unhandled
    (snd (fetch_listener Demo.varying_nav_env Demo.nav_request Demo.stocked))
    = [TypeError "Cache.put: response cannot be stored"].
Proof.
  split; [reflexivity|]. split; [reflexivity|]. split; [reflexivity|].
  split; [reflexivity|]. split; [reflexivity|]. split; [|reflexivity].
  vm_compute. discriminate.
Qed.

Lemma C4_generic_witness :
  fetch_listener Demo.offline_env Demo.script_request Demo.stocked =
    (RespondWith (Fulfilled (Some service_unavailable)), Demo.stocked) /\
  status service_unavailable = 503%N /\
  body service_unavailable = None.
Proof.
  apply (C4_generic_asset_unavailable Demo.offline_env Demo.script_request
           {| origin := "https://app.example"; pathname := "/extra.js" |}
           Demo.stocked).
  - reflexivity.
  - reflexivity.
  - reflexivity.
  - discriminate.
  - reflexivity.
  - reflexivity.
  - reflexivity.
Defined.

Lemma C5_image_witness :
  fetch_listener Demo.offline_env Demo.image_request Demo.stocked =
    (RespondWith (Fulfilled (Some (Demo.page "png"))), Demo.stocked).
Proof.
  apply (C5_image_fallback_icon Demo.offline_env Demo.image_request
           {| origin := "https://app.example";
              pathname := "/photos/cat.JPG" |}
           Demo.stocked).
  - reflexivity.
  - reflexivity.
  - reflexivity.
  - right. exists "jpg", "/photos/cat". split; [simpl; tauto | reflexivity].
  - reflexivity.
  - reflexivity.
Defined.

Lemma C8_eviction_witness :
  map fst (deletions Demo.generations_done) =
    stale_names Demo.shipped_env (storage_names Demo.generations) /\
  Forall (fun d => snd d = FulfilledP) (deletions Demo.generations_done) /\
  forall k,
    In k (stale_names Demo.shipped_env (storage_names Demo.generations)) ->
    ~ In k (storage_names (act_caches Demo.generations_done)).
Proof.
  apply (C8_eviction_before_claim Demo.shipped_env Demo.generations
           Demo.reverse_schedule Demo.generations_done).
  - reflexivity.
  - left. reflexivity.
Defined.

Lemma string_list_NoDup (l : list string) : Str.nodupb l = true -> NoDup l.
Proof. apply nodupb_NoDup. Qed.

Lemma C3_activate_witness :
  act_caches Demo.generations_done =
    filter (fun nc => fst nc =? CACHE_NAME Demo.shipped_env)
           Demo.generations /\
  (forall V1, V1 <> CACHE_VERSION Demo.shipped_env ->
     ~ In (cache_name_of V1)
          (storage_names (act_caches Demo.generations_done))) /\
  (forall n, n <> CACHE_NAME Demo.shipped_env ->
     ~ In n (storage_names (act_caches Demo.generations_done))) /\
  (In (CACHE_NAME Demo.shipped_env) (storage_names Demo.generations) ->
     storage_names (act_caches Demo.generations_done)
       = [CACHE_NAME Demo.shipped_env]) /\
  (~ In (CACHE_NAME Demo.shipped_env) (storage_names Demo.generations) ->
     act_caches Demo.generations_done = []).
Proof.
  apply (C3_activate_keeps_current_only Demo.shipped_env Demo.generations
           Demo.reverse_schedule Demo.generations_done).
  - apply string_list_NoDup. reflexivity.
  - reflexivity.
  - reflexivity.
Defined.

(** C3 as it is stated fails on a storage that does not hold the cache of
    the current version: the listener completes, the cache of the old
    version is deleted, and no cache at all exists afterwards. *)
Lemma C3_counterexample_no_cache_left :
  NoDup (storage_names Demo.old_only) /\
  activate_run (orderly_schedule 1)
    (activate_begin Demo.shipped_env Demo.old_only)
    = Some Demo.old_only_done /\
  lifetime Demo.old_only_done = FulfilledP /\
  storage_names (act_caches Demo.old_only_done) = [] /\
  storage_names (act_caches Demo.old_only_done)
    <> [CACHE_NAME Demo.shipped_env].
Proof.
  split; [apply string_list_NoDup; reflexivity|].
  split; [reflexivity|]. split; [reflexivity|]. split; [reflexivity|].
  discriminate.
Qed.


(* ================================================================== *)
(** * Further properties of the fetch listener *)

Lemma storage_match_none (key : string) (s : CacheStorage) :
  storage_match key s = None ->
  forall n c, In (n, c) s -> cache_match key c = None.
Proof.
  induction s as [|[m d] s IH]; simpl; intros H n c Hin; [easy|].
  destruct (cache_match key d) eqn:Hd; [discriminate|].
  destruct Hin as [Heq|Hin]; [now inversion Heq; subst | eauto].
Qed.

(** [caches.match] finds the entry of the cache called [name] when no
    cache of another name has one. *)
Lemma storage_match_current (name key : string) (s : CacheStorage)
    (c0 : Cache) (r : Response) :
  (forall n c, In (n, c) s -> n <> name -> cache_match key c = None) ->
  storage_get name s = Some c0 ->
  cache_match key c0 = Some r ->
  storage_match key s = Some r.
Proof.
  induction s as [|[m d] s IH]; simpl; intros Hoth Hget Hr; [discriminate|].
  destruct (m =? name) eqn:Hm.
  - inversion Hget; subst. now rewrite Hr.
  - apply String.eqb_neq in Hm.
    rewrite (Hoth m d (or_introl eq_refl) Hm).
    apply IH; [|exact Hget|exact Hr].
    intros n c Hin. apply Hoth. now right.
Qed.

(** A write to the cache called [name] leaves the caches of other names
    as they were. *)
Lemma In_after_write (name : string) (f : Cache -> Cache) (s : CacheStorage)
    (n : string) (c : Cache) :
  In (n, c) (storage_update name f (storage_open name s)) ->
  n <> name ->
  In (n, c) s.
Proof.
  unfold storage_update. intros Hin Hn. apply in_map_iff in Hin.
  destruct Hin as [[m d] [Heq Hin]]. simpl in Heq.
  destruct (m =? name) eqn:Hm.
  - apply String.eqb_eq in Hm. inversion Heq; subst. congruence.
  - inversion Heq; subst. unfold storage_open in Hin.
    destruct (storage_has name s); [exact Hin|].
    apply in_app_or in Hin. destruct Hin as [Hin|[Heq'|[]]]; [exact Hin|].
    inversion Heq'; subst. congruence.
Qed.

Lemma In_after_open (name : string) (s : CacheStorage)
    (n : string) (c : Cache) :
  In (n, c) (storage_open name s) -> n <> name -> In (n, c) s.
Proof.
  unfold storage_open. intros Hin Hn.
  destruct (storage_has name s); [exact Hin|].
  apply in_app_or in Hin. destruct Hin as [Hin|[Heq|[]]]; [exact Hin|].
  inversion Heq; subst. congruence.
Qed.

(** After an accepted detached put, [caches.match] finds the response
    under the key, no cache of another name having an entry for it. *)
Lemma detached_put_matched (E : Env) (key : string) (r : Response)
    (w : World) :
  put_accepts r = true ->
  (forall n c, In (n, c) (caches w) -> n <> CACHE_NAME E ->
               cache_match key c = None) ->
  storage_match key (caches (after_detached_put E key r w)) = Some r.
Proof.
  intros Hp Hoth.
  destruct (detached_put_stored E key r w Hp) as [c0 [Hget Hr]].
  apply (storage_match_current (CACHE_NAME E) key _ c0 r); auto.
  intros n c Hin Hn. apply (Hoth n c); [|exact Hn].
  unfold after_detached_put in Hin. rewrite Hp in Hin. simpl in Hin.
  exact (In_after_write _ _ _ n c Hin Hn).
Qed.

(** X1. A request whose method is not GET is left to the browser: the
    listener returns before [respondWith], whatever the URL, the caches
    and the network, and the world is as it was (lines 77-80). *)
Theorem X1_other_methods_pass_through
    (E : Env) (req : Request) (w : World) :
  method req <> "GET" ->
  fetch_listener E req w = (NotIntercepted, w).
Proof.
  intros Hm. unfold fetch_listener.
  destruct (method req =? "GET") eqn:Hg.
  - apply String.eqb_eq in Hg. contradiction.
  - reflexivity.
Qed.

Lemma X1_witness :
  fetch_listener Demo.offline_env Demo.post_request Demo.stocked =
  (NotIntercepted, Demo.stocked).
Proof.
  apply (X1_other_methods_pass_through Demo.offline_env Demo.post_request
           Demo.stocked).
  discriminate.
Defined.

(** X2. A GET request that is not a navigation and that some cache has an
    entry for is answered with the first such entry; the network is not
    asked, whatever it would answer, and the world is as it was (lines
    101-104). *)
Theorem X2_cache_hit_skips_network
    (E : Env) (network : Request -> NetResult) (req : Request)
    (reqUrl : URL) (cached : Response) (w : World) :
  method req = "GET" ->
  URL_parse E (url req) = Some reqUrl ->
  is_navigation req = false ->
  storage_match (url req) (caches w) = Some cached ->
  fetch_listener (with_net E network) req w =
  (RespondWith (Fulfilled (Some cached)), w).
Proof.
  intros Hm Hp Hnav Hc.
  rewrite (fetch_listener_get (with_net E network) req reqUrl w Hm Hp), Hnav.
  unfold respondWith.
  now rewrite (cache_first_hit (with_net E network) req reqUrl cached w Hc).
Qed.

Lemma X2_witness :
  fetch_listener (with_net Demo.offline_env Demo.full_net)
    (Demo.get Demo.icon_key "no-cors" "image" None) Demo.stocked =
  (RespondWith (Fulfilled (Some (Demo.page "png"))), Demo.stocked).
Proof.
  apply (X2_cache_hit_skips_network Demo.offline_env Demo.full_net
           (Demo.get Demo.icon_key "no-cors" "image" None)
           {| origin := "https://app.example";
              pathname := "/apple-touch-icon-180.png" |}
           (Demo.page "png") Demo.stocked); reflexivity.
Defined.

(** X3. On a cache miss, a response whose status is not 200, or that
    answers a request to another origin, is handed to the page and nothing
    is written: the world is as it was (lines 109-114). *)
Theorem X3_uncacheable_response_passes
    (E : Env) (req : Request) (reqUrl : URL) (r : Response) (w : World) :
  method req = "GET" ->
  URL_parse E (url req) = Some reqUrl ->
  is_navigation req = false ->
  storage_match (url req) (caches w) = None ->
  net E req = NetOk r ->
  status r <> 200%N \/ origin reqUrl <> location_origin E ->
  fetch_listener E req w = (RespondWith (Fulfilled (Some r)), w).
Proof.
  intros Hm Hp Hnav Hc Hn Hguard.
  rewrite (fetch_listener_get E req reqUrl w Hm Hp), Hnav.
  unfold respondWith.
  rewrite (cache_first_online E req reqUrl r w Hc Hn).
  destruct Hguard as [Hs|Ho].
  - apply N.eqb_neq in Hs. now rewrite Hs.
  - apply String.eqb_neq in Ho. now rewrite Ho, andb_false_r.
Qed.

Lemma X3_witness :
  fetch_listener Demo.scripts_env Demo.cdn_request Demo.stocked =
  (RespondWith (Fulfilled (Some (Demo.page "lib"))), Demo.stocked).
Proof.
  apply (X3_uncacheable_response_passes Demo.scripts_env Demo.cdn_request
           {| origin := "https://cdn.example"; pathname := "/lib.js" |}
           (Demo.page "lib") Demo.stocked); try reflexivity.
  right. discriminate.
Defined.

(** X4. A response of status 200 to a request on the worker's own origin,
    fetched on a cache miss and accepted by the Cache API, is served from
    the cache from then on: the same request is answered with it whatever
    the network does afterwards, and that second answer writes nothing
    (lines 101-126). *)
Theorem X4_fetched_asset_served_from_cache
    (E : Env) (later : Request -> NetResult) (req : Request)
    (reqUrl : URL) (r : Response) (w : World) :
  method req = "GET" ->
  URL_parse E (url req) = Some reqUrl ->
  is_navigation req = false ->
  storage_match (url req) (caches w) = None ->
  net E req = NetOk r ->
  status r = 200%N ->
  origin reqUrl = location_origin E ->
  put_accepts r = true ->
  fetch_listener (with_net E later) req (snd (fetch_listener E req w)) =
  (RespondWith (Fulfilled (Some r)), snd (fetch_listener E req w)).
Proof.
  intros Hm Hp Hnav Hc Hn Hs Ho Hacc.
  rewrite (fetch_listener_get E req reqUrl w Hm Hp), Hnav.
  unfold respondWith.
  rewrite (cache_first_online E req reqUrl r w Hc Hn).
  apply N.eqb_eq in Hs. apply String.eqb_eq in Ho. rewrite Hs, Ho. simpl.
  rewrite (fetch_listener_get (with_net E later) req reqUrl _ Hm Hp), Hnav.
  unfold respondWith.
  rewrite (cache_first_hit (with_net E later) req reqUrl r); [reflexivity|].
  apply (detached_put_matched E (url req) r w Hacc).
  intros n c Hin _. exact (storage_match_none _ _ Hc n c Hin).
Qed.

Lemma X4_witness :
  fetch_listener (with_net Demo.scripts_env Demo.offline) Demo.script_request
    (snd (fetch_listener Demo.scripts_env Demo.script_request Demo.stocked)) =
  (RespondWith (Fulfilled (Some (Demo.page "extra"))),
   snd (fetch_listener Demo.scripts_env Demo.script_request Demo.stocked)).
Proof.
  apply (X4_fetched_asset_served_from_cache Demo.scripts_env Demo.offline
           Demo.script_request
           {| origin := "https://app.example"; pathname := "/extra.js" |}
           (Demo.page "extra") Demo.stocked); reflexivity.
Defined.

(** X5. The root document is the page navigated to last.  After a
    navigation, to whatever URL, that the network answered with a response
    the Cache API accepts, a navigation made while the network is down, to
    whatever URL, is answered with that response, no cache of another name
    holding an entry for the root document (lines 86-95). *)
Theorem X5_offline_navigation_gets_last_page
    (E : Env) (later : Request -> NetResult) (req1 req2 : Request)
    (r : Response) (w : World) :
  method req1 = "GET" ->
  URL_parse E (url req1) <> None ->
  is_navigation req1 = true ->
  net E req1 = NetOk r ->
  put_accepts r = true ->
  (forall n c, In (n, c) (caches w) -> n <> CACHE_NAME E ->
               cache_match (resolve E "/index.html") c = None) ->
  method req2 = "GET" ->
  URL_parse E (url req2) <> None ->
  is_navigation req2 = true ->
  later req2 = NetFail ->
  fetch_listener (with_net E later) req2 (snd (fetch_listener E req1 w)) =
  (RespondWith (Fulfilled (Some r)), snd (fetch_listener E req1 w)).
Proof.
  intros Hm1 Hp1 Hnav1 Hn1 Hacc Hoth Hm2 Hp2 Hnav2 Hn2.
  destruct (URL_parse E (url req1)) as [u1|] eqn:Hu1; [|congruence].
  destruct (URL_parse E (url req2)) as [u2|] eqn:Hu2; [|congruence].
  rewrite (fetch_listener_get E req1 u1 w Hm1 Hu1), Hnav1.
  unfold respondWith.
  rewrite (navigation_online E req1 r w Hn1). simpl.
  rewrite (fetch_listener_get (with_net E later) req2 u2 _ Hm2 Hu2), Hnav2.
  unfold respondWith.
  rewrite (navigation_offline (with_net E later) req2 _ Hn2).
  change (resolve (with_net E later) "/index.html")
    with (resolve E "/index.html").
  now rewrite (detached_put_matched E _ r w Hacc Hoth).
Qed.

Lemma X5_witness :
  fetch_listener (with_net Demo.settings_env Demo.offline) Demo.home_request
    (snd (fetch_listener Demo.settings_env Demo.nav_request Demo.stocked)) =
  (RespondWith (Fulfilled (Some (Demo.page "<settings>"))),
   snd (fetch_listener Demo.settings_env Demo.nav_request Demo.stocked)).
Proof.
  apply (X5_offline_navigation_gets_last_page Demo.settings_env Demo.offline
           Demo.nav_request Demo.home_request (Demo.page "<settings>")
           Demo.stocked); try reflexivity; try (vm_compute; discriminate).
  intros n c [Heq|[]] Hn. inversion Heq; subst. now elim Hn.
Defined.

(** The world after the fetch listener: as it was, or after one detached
    put into the current cache. *)
Lemma fetch_listener_world (E : Env) (req : Request) (w : World) :
  snd (fetch_listener E req w) = w \/
  exists key r, snd (fetch_listener E req w) = after_detached_put E key r w.
Proof.
  unfold fetch_listener.
  destruct (negb (method req =? "GET")); [now left|].
  unfold new_URL. destruct (URL_parse E (url req)) as [reqUrl|]; [|now left].
  unfold ret, respondWith. destruct (is_navigation req).
  - destruct (net E req) as [r|] eqn:Hn.
    + rewrite (navigation_online E req r w Hn). right.
      do 2 eexists. reflexivity.
    + rewrite (navigation_offline E req w Hn). now left.
  - destruct (storage_match (url req) (caches w)) as [cached|] eqn:Hc.
    + rewrite (cache_first_hit E req reqUrl cached w Hc). now left.
    + destruct (net E req) as [r|] eqn:Hn.
      * rewrite (cache_first_online E req reqUrl r w Hc Hn). simpl.
        destruct (_ && _); [right; do 2 eexists; reflexivity | now left].
      * rewrite (cache_first_offline E req reqUrl w Hc Hn). now left.
Qed.

Lemma storage_names_open (name : string) (s : CacheStorage) :
  storage_names (storage_open name s) =
  if storage_has name s then storage_names s
  else (storage_names s ++ [name])%list.
Proof.
  unfold storage_open. destruct (storage_has name s); [reflexivity|].
  unfold storage_names. now rewrite map_app.
Qed.

Lemma storage_names_open_incl (name : string) (s : CacheStorage) (n : string) :
  In n (storage_names s) -> In n (storage_names (storage_open name s)).
Proof.
  rewrite storage_names_open. destruct (storage_has name s); [easy|].
  intros H. apply in_or_app. now left.
Qed.

(** X6. The fetch listener writes to the current cache only.  Whatever the
    request and the network, every cache of another name is afterwards as
    it was, no cache has disappeared, and the listener has not asked to
    skip waiting (lines 74-138). *)
Theorem X6_fetch_touches_current_cache_only
    (E : Env) (req : Request) (w : World) :
  (forall n, n <> CACHE_NAME E ->
     storage_get n (caches (snd (fetch_listener E req w)))
       = storage_get n (caches w)) /\
  (forall n, In n (storage_names (caches w)) ->
     In n (storage_names (caches (snd (fetch_listener E req w))))) /\
  skipped_waiting (snd (fetch_listener E req w)) = skipped_waiting w.
Proof.
  destruct (fetch_listener_world E req w) as [-> | [key [r ->]]]; [auto|].
  unfold after_detached_put. destruct (put_accepts r); simpl.
  - split; [|split; [|reflexivity]].
    + intros n Hn.
      now rewrite storage_get_update_other, storage_get_open_other.
    + intros n Hin. rewrite storage_names_update.
      now apply storage_names_open_incl.
  - split; [|split; [|reflexivity]].
    + intros n Hn. now rewrite storage_get_open_other.
    + intros n Hin. now apply storage_names_open_incl.
Qed.

(** X7. The promise given to [respondWith] is never rejected.  It is
    fulfilled with no response at all in two situations only, both with
    the network down: a navigation with no cached root document, and an
    image request with neither an entry of its own nor a cached fallback
    icon (lines 86-137). *)
Theorem X7_no_response_exactly_when
    (E : Env) (req : Request) (reqUrl : URL) (w : World) :
  method req = "GET" ->
  URL_parse E (url req) = Some reqUrl ->
  (exists o, fst (fetch_listener E req w) = RespondWith (Fulfilled o)) /\
  (fst (fetch_listener E req w) = RespondWith (Fulfilled None) <->
   net E req = NetFail /\
   if is_navigation req
   then storage_match (resolve E "/index.html") (caches w) = None
   else storage_match (url req) (caches w) = None /\
        asks_image req reqUrl = true /\
        storage_match (resolve E "/apple-touch-icon-180.png") (caches w)
          = None).
Proof.
  intros Hm Hp. rewrite (fetch_listener_get E req reqUrl w Hm Hp).
  unfold respondWith, asks_image. destruct (is_navigation req).
  - destruct (net E req) as [r|] eqn:Hn.
    + rewrite (navigation_online E req r w Hn). simpl.
      split; [eauto|]. split; [discriminate | intros [H _]; discriminate].
    + rewrite (navigation_offline E req w Hn). simpl. split; [eauto|].
      split.
      * intros H. inversion H. auto.
      * intros [_ H]. now rewrite H.
  - destruct (storage_match (url req) (caches w)) as [cached|] eqn:Hc.
    + rewrite (cache_first_hit E req reqUrl cached w Hc). simpl.
      split; [eauto|].
      split; [discriminate | intros [_ [H _]]; discriminate].
    + destruct (net E req) as [r|] eqn:Hn.
      * rewrite (cache_first_online E req reqUrl r w Hc Hn). simpl.
        split; [eauto|].
        split; [discriminate | intros [H _]; discriminate].
      * rewrite (cache_first_offline E req reqUrl w Hc Hn), Hp. simpl.
        split; [eauto|].
        destruct ((destination req =? "image")
                  || image_regex_test (pathname reqUrl)).
        -- split.
           ++ intros H. inversion H. auto.
           ++ intros [_ [_ [_ H]]]. now rewrite H.
        -- split; [discriminate | intros [_ [_ [H _]]]; discriminate].
Qed.

Lemma X7_witness :
  (exists o,
     fst (fetch_listener Demo.offline_env Demo.image_request Demo.fresh)
       = RespondWith (Fulfilled o)) /\
  (fst (fetch_listener Demo.offline_env Demo.image_request Demo.fresh)
     = RespondWith (Fulfilled None) <->
   net Demo.offline_env Demo.image_request = NetFail /\
   if is_navigation Demo.image_request
   then storage_match (resolve Demo.offline_env "/index.html")
          (caches Demo.fresh) = None
   else storage_match (url Demo.image_request) (caches Demo.fresh) = None /\
        asks_image Demo.image_request
          {| origin := "https://app.example";
             pathname := "/photos/cat.JPG" |} = true /\
        storage_match (resolve Demo.offline_env "/apple-touch-icon-180.png")
          (caches Demo.fresh) = None).
Proof.
  apply (X7_no_response_exactly_when Demo.offline_env Demo.image_request
           {| origin := "https://app.example";
              pathname := "/photos/cat.JPG" |} Demo.fresh); reflexivity.
Defined.

(* ================================================================== *)
(** * The two classifiers *)

(** X8. [isImageRequest] answers [true] exactly for a request whose
    destination is [image], or whose URL parses and has a path that ends,
    letters compared without case, in a dot and one of png, jpg, jpeg,
    gif, webp, svg, ico; for every other request, one with a URL that does
    not parse included, it answers [false] (lines 26-34). *)
Theorem X8_isImageRequest_exactly
    (E : Env) (request : Request) (w : World) :
  (isImageRequest E request w = (Fulfilled true, w) <->
   destination request = "image" \/
   exists u ext stem,
     URL_parse E (url request) = Some u /\
     In ext IMAGE_EXTENSIONS /\
     Str.lower (pathname u) = stem ++ "." ++ ext) /\
  (isImageRequest E request w = (Fulfilled true, w) \/
   isImageRequest E request w = (Fulfilled false, w)).
Proof.
  rewrite isImageRequest_pure. split.
  - split.
    + intros H. injection H as Hb. apply orb_true_iff in Hb.
      destruct Hb as [Hd|Hx].
      * left. now apply String.eqb_eq.
      * right. destruct (URL_parse E (url request)) as [u|]; [|discriminate].
        apply image_regex_test_iff in Hx. destruct Hx as [ext [stem Hx]].
        exists u, ext, stem. tauto.
    + intros [Hd | [u [ext [stem [Hu [Hin Hl]]]]]].
      * apply String.eqb_eq in Hd. now rewrite Hd.
      * rewrite Hu.
        assert (Hx : image_regex_test (pathname u) = true)
          by (apply image_regex_test_iff; eauto).
        now rewrite Hx, orb_true_r.
  - destruct (_ || _); auto.
Qed.




(* ================================================================== *)
(** * Further properties of the install listener *)

(** X10. The install listener always asks to skip waiting, leaves the
    current cache open, and writes to no other cache: every cache of
    another name is afterwards as it was, no cache has disappeared, and no
    rejection is left unhandled (lines 37-60). *)
Theorem X10_install_touches_current_cache_only (E : Env) (w : World) :
  skipped_waiting (snd (install E w)) = true /\
  storage_has (CACHE_NAME E) (caches (snd (install E w))) = true /\
  (forall n, n <> CACHE_NAME E ->
     storage_get n (caches (snd (install E w))) = storage_get n (caches w)) /\
  (forall n, In n (storage_names (caches w)) ->
     In n (storage_names (caches (snd (install E w))))) /\
  unhandled (snd (install E w)) = unhandled w.
Proof.
  rewrite install_run. simpl. split; [reflexivity|]. split; [|split; [|split]].
  - unfold storage_has. rewrite storage_names_update. apply storage_open_has.
  - intros n Hn.
    now rewrite storage_get_update_other, storage_get_open_other.
  - intros n Hin. rewrite storage_names_update.
    now apply storage_names_open_incl.
  - reflexivity.
Qed.

Lemma salvaged_none (E : Env) (assets : list string) :
  (forall a, In a assets -> exists e, add_fetch E a = inl e) ->
  salvaged E assets = [].
Proof.
  induction assets as [|a assets IH]; simpl; intros H; [reflexivity|].
  destruct (H a (or_introl eq_refl)) as [e He]. rewrite He.
  apply IH. intros b Hb. apply H. now right.
Qed.

(** X11. When not one asset can be added, as when the worker is installed
    with the network down, the install listener still fulfils its promise
    and asks to skip waiting; the current cache is left with the entries
    it had, and is created empty if it did not exist (lines 43-57). *)
Theorem X11_install_with_nothing_to_add (E : Env) (w : World) :
  (forall a, In a (ASSETS_TO_CACHE E) -> exists e, add_fetch E a = inl e) ->
  fst (install E w) = Fulfilled tt /\
  skipped_waiting (snd (install E w)) = true /\
  storage_get (CACHE_NAME E) (caches (snd (install E w))) =
  Some (match storage_get (CACHE_NAME E) (caches w) with
        | Some c => c
        | None => []
        end).
Proof.
  intros Hnone. rewrite install_current_cache, install_run. simpl.
  now rewrite (salvaged_none E _ Hnone).
Qed.

Lemma X11_witness :
  fst (install Demo.offline_env Demo.used) = Fulfilled tt /\
  skipped_waiting (snd (install Demo.offline_env Demo.used)) = true /\
  storage_get (CACHE_NAME Demo.offline_env)
    (caches (snd (install Demo.offline_env Demo.used))) =
  Some (match storage_get (CACHE_NAME Demo.offline_env) (caches Demo.used) with
        | Some c => c
        | None => []
        end).
Proof.
  apply (X11_install_with_nothing_to_add Demo.offline_env Demo.used).
  intros a _. eexists. reflexivity.
Defined.





(** [install] is the listener whose single adds complete in the order of
    the manifest. *)
Lemma install_completing_manifest (E : Env) (w : World) :
  install_completing E (ASSETS_TO_CACHE E) w = install E w.
Proof. reflexivity. Qed.



(** With the adds completing in the reverse order, the two entries of the
    scenario are in the cache in that order. *)
Example install_reverse_scenario :
  storage_get (CACHE_NAME Demo.shell_env)
    (caches
       (snd (install_completing Demo.shell_env Demo.reverse_completion
               Demo.fresh))) =
  Some [("https://app.example/app.js", Demo.page "js");
        ("https://app.example/", Demo.page "<html>")].
Proof. reflexivity. Qed.

Lemma fetch_all_total (E : Env) (assets : list string) :
  (forall a, In a assets -> exists r, add_fetch E a = inr r) ->
  fetch_all E assets = inr (salvaged E assets) /\
  map fst (salvaged E assets) = map (resolve E) assets.
Proof.
  induction assets as [|a assets IH]; simpl; intros H; [auto|].
  destruct (H a (or_introl eq_refl)) as [r Hr]. rewrite Hr.
  destruct IH as [-> Hk]; [intros b Hb; apply H; now right|].
  simpl. now rewrite Hk.
Qed.

Lemma resolve_map_NoDup (E : Env) (assets : list string) :
  NoDup (map (resolve E) assets) <-> NoDup assets.
Proof.
  induction assets as [|a assets IH]; simpl.
  - split; constructor.
  - split; intros H; inversion H as [|? ? Hnin Hnd]; subst; constructor.
    + intros Hin. apply Hnin. now apply in_map.
    + now apply IH.
    + intros Hin. apply in_map_iff in Hin. destruct Hin as [b [Hb Hin]].
      apply resolve_inj in Hb. now subst b.
    + now apply IH.
Qed.

(** The bulk attempt goes through exactly when every asset can be added
    and the manifest names no asset twice. *)
Lemma bulk_attempt_iff (E : Env) (w : World) :
  bulk_attempt E w = Fulfilled tt <->
  NoDup (ASSETS_TO_CACHE E) /\
  forall a, In a (ASSETS_TO_CACHE E) -> exists r, add_fetch E a = inr r.
Proof.
  split.
  - intros Hb. destruct (bulk_attempt_fulfilled E w Hb) as [entries Hall].
    assert (Heach : forall a, In a (ASSETS_TO_CACHE E) ->
                      exists r, add_fetch E a = inr r)
      by (intros a Ha; exact (fetch_all_each E _ entries a Hall Ha)).
    split; [|exact Heach].
    destruct (fetch_all_total E _ Heach) as [Hall' Hkeys].
    unfold bulk_attempt, cache_addAll in Hb. rewrite Hall' in Hb.
    destruct (Str.nodupb (map fst (salvaged E (ASSETS_TO_CACHE E)))) eqn:Hn;
      [|discriminate].
    apply nodupb_NoDup in Hn. rewrite Hkeys in Hn.
    now apply resolve_map_NoDup in Hn.
  - intros [Hnd Heach].
    destruct (fetch_all_total E _ Heach) as [Hall Hkeys].
    unfold bulk_attempt, cache_addAll. rewrite Hall.
    assert (Hn : Str.nodupb (map fst (salvaged E (ASSETS_TO_CACHE E))) = true).
    { apply nodupb_NoDup. rewrite Hkeys. now apply resolve_map_NoDup. }
    now rewrite Hn.
Qed.

(** X13. The install listener logs nothing exactly when every asset of
    the manifest can be added and the manifest names no asset twice, which
    is when [cache.addAll] goes through; in every other case the rejection
    of [cache.addAll] is the first thing it logs (lines 43-47). *)
Theorem X13_install_silent_exactly_when (E : Env) (w : World) :
  (console (snd (install E w)) = console w <->
   NoDup (ASSETS_TO_CACHE E) /\
   forall a, In a (ASSETS_TO_CACHE E) -> exists r, add_fetch E a = inr r) /\
  (console (snd (install E w)) <> console w ->
   exists err rest,
     console (snd (install E w)) =
     (console w ++ WarnAddAllFailed err :: rest)%list).
Proof.
  rewrite install_run. simpl. rewrite <- (bulk_attempt_iff E w).
  destruct (bulk_attempt E w) as [[]|err].
  - split; [tauto|]. intros H. now elim H.
  - split.
    + split; [|discriminate]. intros H.
      apply (f_equal (@List.length LogEntry)) in H.
      rewrite length_app in H. simpl in H. lia.
    + intros _. eauto.
Qed.

(* ================================================================== *)
(** * Further properties of the activate listener *)

Lemma storage_get_filter (name : string) (g : string * Cache -> bool)
    (s : CacheStorage) :
  (forall c, g (name, c) = true) ->
  storage_get name (filter g s) = storage_get name s.
Proof.
  intros Hg. induction s as [|[n c] s IH]; simpl; [reflexivity|].
  destruct (n =? name) eqn:Hn.
  - apply String.eqb_eq in Hn. subst n. rewrite Hg. simpl.
    now rewrite String.eqb_refl.
  - destruct (g (n, c)); simpl; [now rewrite Hn | exact IH].
Qed.

Lemma storage_open_NoDup (name : string) (s : CacheStorage) :
  NoDup (storage_names s) -> NoDup (storage_names (storage_open name s)).
Proof.
  intros H. rewrite storage_names_open.
  destruct (storage_has name s) eqn:Hh; [exact H|].
  apply mem_false_not_In in Hh. apply NoDup_app.
  - exact H.
  - repeat constructor. simpl. tauto.
  - intros x Hx [Heq|[]]. subst x. contradiction.
Qed.

(** X14. The upgrade as a whole.  From a storage with distinct names, and
    whatever caches of earlier versions or of other applications it holds:
    once the install listener has run and the activate listener has
    completed, exactly one cache exists, the current one, and it holds
    what install left in it (lines 37-71). *)
Theorem X14_upgrade_leaves_current_cache
    (E : Env) (w : World) (schedule : list Action) (s : ActivateState) :
  NoDup (storage_names (caches w)) ->
  activate_run schedule (activate_begin E (caches (snd (install E w))))
    = Some s ->
  lifetime s = FulfilledP ->
  storage_names (act_caches s) = [CACHE_NAME E] /\
  storage_get (CACHE_NAME E) (act_caches s) =
  storage_get (CACHE_NAME E) (caches (snd (install E w))).
Proof.
  intros Hnd Hrun Hdone.
  destruct (reachable_inv E _ schedule s Hrun) as [Hn Hr Ha Hc Hl Hs].
  assert (Hf : Forall (fun d => snd d = FulfilledP) (deletions s)).
  { apply awaited_zero. rewrite <- Hr. auto. }
  rewrite Hs, (evicted_storage E _ _ Hn Hf). split.
  - apply current_only_present.
    + rewrite install_run. simpl. rewrite storage_names_update.
      now apply storage_open_NoDup.
    + rewrite install_run. simpl. rewrite storage_names_update.
      apply mem_In. apply storage_open_has.
  - apply storage_get_filter. intros c. simpl. apply String.eqb_refl.
Qed.

Lemma X14_witness :
  storage_names (act_caches Demo.upgrade_done) = [CACHE_NAME Demo.shell_env] /\
  storage_get (CACHE_NAME Demo.shell_env) (act_caches Demo.upgrade_done) =
  storage_get (CACHE_NAME Demo.shell_env)
    (caches (snd (install Demo.shell_env Demo.old_world))).
Proof.
  apply (X14_upgrade_leaves_current_cache Demo.shell_env Demo.old_world
           (orderly_schedule 1) Demo.upgrade_done).
  - apply string_list_NoDup. reflexivity.
  - reflexivity.
  - reflexivity.
Defined.

Lemma In_middle_other {A} (x y z : A) (l1 l2 : list A) :
  In z (l1 ++ y :: l2)%list -> z <> y -> In z (l1 ++ x :: l2)%list.
Proof.
  intros Hin Hz. apply in_app_or in Hin. apply in_or_app.
  destruct Hin as [Hin|[Heq|Hin]]; [now left | congruence | right; now right].
Qed.

Lemma begin_failure_inv (E : Env) (stores : CacheStorage) :
  FailureInv (activate_begin E stores).
Proof.
  unfold FailureInv, activate_begin. simpl. split.
  - now destruct (stale_names E (storage_names stores)).
  - intros [d [Hin Hd]]. apply in_map_iff in Hin.
    destruct Hin as [k [Hk _]]. subst d. discriminate.
Qed.

Lemma step_failure_inv (E : Env) (stores : CacheStorage) (a : Action)
    (s s' : ActivateState) :
  ActivateInv E stores s ->
  FailureInv s ->
  activate_step a s = Some s' ->
  FailureInv s'.
Proof.
  intros [Hn Hr Ha Hc Hl Hs] [J1 J2] Hstep.
  destruct a as [i [|]|]; simpl in Hstep.
  - destruct (nth_error (deletions s) i) as [[k p]|] eqn:Hi; [|discriminate].
    destruct p; try discriminate. inversion Hstep; subst s'; clear Hstep.
    destruct (set_nth_split i (k, Pending) (k, FulfilledP) _ Hi)
      as [l1 [l2 [Hd [Hd' _]]]].
    unfold FailureInv. simpl. rewrite Hd'.
    assert (Hrej : (exists d, In d (l1 ++ (k, FulfilledP) :: l2)%list /\
                              snd d = RejectedP) ->
                   all_deleted s = RejectedP).
    { intros [d [Hin Hsd]]. apply J2. exists d. split; [|exact Hsd].
      rewrite Hd. apply (In_middle_other _ (k, FulfilledP)); [exact Hin|].
      intros ->. discriminate. }
    split.
    + destruct (is_pending (all_deleted s) && (remaining s - 1 =? 0)%nat);
        [discriminate | exact J1].
    + intros Hex. specialize (Hrej Hex). now rewrite Hrej.
  - destruct (nth_error (deletions s) i) as [[k p]|] eqn:Hi; [|discriminate].
    destruct p; try discriminate. inversion Hstep; subst s'; clear Hstep.
    unfold FailureInv. simpl.
    destruct (all_deleted s) eqn:Hall; simpl.
    + auto.
    + exfalso. specialize (Ha eq_refl). rewrite Hr in Ha.
      apply awaited_zero in Ha. rewrite Forall_forall in Ha.
      apply nth_error_In in Hi. specialize (Ha _ Hi). discriminate.
    + split; [exact J1 | reflexivity].
  - destruct (is_fulfilled (all_deleted s) && negb (claimed s)) eqn:Hb;
      [|discriminate].
    inversion Hstep; subst s'; clear Hstep.
    apply andb_true_iff in Hb. destruct Hb as [Hf _].
    unfold FailureInv. simpl.
    destruct (all_deleted s) eqn:Hall; try discriminate.
    split; [discriminate|]. intros Hex. now apply J2.
Qed.

Lemma run_failure_inv (E : Env) (stores : CacheStorage)
    (schedule : list Action) (s s' : ActivateState) :
  ActivateInv E stores s ->
  FailureInv s ->
  activate_run schedule s = Some s' ->
  FailureInv s'.
Proof.
  revert s. induction schedule as [|a schedule IH]; simpl; intros s HI HJ Hrun.
  - now inversion Hrun; subst.
  - destruct (activate_step a s) as [s1|] eqn:Hstep; [|discriminate].
    apply (IH s1); [| |exact Hrun].
    + exact (step_inv E stores a s s1 HI Hstep).
    + exact (step_failure_inv E stores a s s1 HI HJ Hstep).
Qed.

(** X15. When one deletion fails, the clients are never claimed.  In
    every state of the activate listener in which a deletion has been
    rejected, whatever happened before and whether the other deletions
    succeeded: [Promise.all] has rejected, the callback of line 69 has not
    run and cannot run, and the promise given to [waitUntil] is rejected
    (lines 64-70). *)
Theorem X15_failed_deletion_blocks_claim
    (E : Env) (stores : CacheStorage) (schedule : list Action)
    (s : ActivateState) :
  activate_run schedule (activate_begin E stores) = Some s ->
  (exists d, In d (deletions s) /\ snd d = RejectedP) ->
  all_deleted s = RejectedP /\
  claimed s = false /\
  activate_step RunThen s = None /\
  lifetime s = RejectedP.
Proof.
  intros Hrun Hrej.
  pose proof (reachable_inv E stores schedule s Hrun) as HI.
  destruct (run_failure_inv E stores schedule _ s (begin_inv E stores)
              (begin_failure_inv E stores) Hrun) as [J1 J2].
  specialize (J2 Hrej). destruct HI as [_ _ _ Hc _ _].
  split; [exact J2|]. split; [|split].
  - destruct (claimed s); [|reflexivity].
    specialize (Hc eq_refl). congruence.
  - simpl. now rewrite J2.
  - now apply J1.
Qed.

Lemma X15_witness :
  all_deleted Demo.generations_failed = RejectedP /\
  claimed Demo.generations_failed = false /\
  activate_step RunThen Demo.generations_failed = None /\
  lifetime Demo.generations_failed = RejectedP.
Proof.
  apply (X15_failed_deletion_blocks_claim Demo.shipped_env Demo.generations
           Demo.failing_schedule Demo.generations_failed).
  - reflexivity.
  - exists ("phone-keypad-v1", RejectedP). split; [now left | reflexivity].
Defined.

Lemma current_never_deleted (E : Env) (ds : list (string * PromiseState))
    (keys : list string) :
  map fst ds = stale_names E keys ->
  deleted_in ds (CACHE_NAME E) = false.
Proof.
  intros Hn. unfold deleted_in.
  destruct (existsb _ ds) eqn:Hex; [|reflexivity].
  apply existsb_exists in Hex. destruct Hex as [[k p] [Hin Hk]].
  simpl in Hk. apply andb_true_iff in Hk. destruct Hk as [Hk _].
  apply String.eqb_eq in Hk. subst k.
  assert (Hs : In (CACHE_NAME E) (stale_names E keys)).
  { rewrite <- Hn. apply in_map_iff. now exists (CACHE_NAME E, p). }
  apply stale_names_In in Hs. now destruct Hs.
Qed.

(** X16. The activate listener never touches the current cache and never
    adds or changes a cache.  In every state it reaches, under every order
    of the deletions and whether they succeed or fail, the cache of the
    current name is as it was when the listener began, and every cache
    that exists was there, with the same entries, at the beginning (lines
    65-68). *)
Theorem X16_activate_spares_current_cache
    (E : Env) (stores : CacheStorage) (schedule : list Action)
    (s : ActivateState) :
  activate_run schedule (activate_begin E stores) = Some s ->
  storage_get (CACHE_NAME E) (act_caches s) =
    storage_get (CACHE_NAME E) stores /\
  forall nc, In nc (act_caches s) -> In nc stores.
Proof.
  intros Hrun.
  destruct (reachable_inv E stores schedule s Hrun) as [Hn _ _ _ _ Hs].
  rewrite Hs. split.
  - apply storage_get_filter. intros c. simpl.
    now rewrite (current_never_deleted E _ _ Hn).
  - intros nc Hin. apply filter_In in Hin. tauto.
Qed.

Lemma X16_witness :
  storage_get (CACHE_NAME Demo.shipped_env)
    (act_caches Demo.generations_failed) =
    storage_get (CACHE_NAME Demo.shipped_env) Demo.generations /\
  forall nc, In nc (act_caches Demo.generations_failed) ->
             In nc Demo.generations.
Proof.
  apply (X16_activate_spares_current_cache Demo.shipped_env Demo.generations
           Demo.failing_schedule Demo.generations_failed).
  reflexivity.
Defined.

(** X17. The clients can be claimed at once, before any deletion has
    settled, exactly when there is nothing to delete: when every cache
    that exists, if any, has the current name (lines 65-69). *)
Theorem X17_claim_at_once_exactly_when (E : Env) (stores : CacheStorage) :
  activate_step RunThen (activate_begin E stores) <> None <->
  forall n, In n (storage_names stores) -> n = CACHE_NAME E.
Proof.
  simpl. split.
  - intros Hen n Hin.
    destruct (String.eqb_spec n (CACHE_NAME E)) as [Heq|Hne]; [exact Heq|].
    assert (Hs : In n (stale_names E (storage_names stores)))
      by (apply stale_names_In; auto).
    destruct (stale_names E (storage_names stores)); [easy|].
    simpl in Hen. now elim Hen.
  - intros Hall.
    destruct (stale_names E (storage_names stores)) as [|k l] eqn:Hst;
      [discriminate|].
    assert (Hk : In k (stale_names E (storage_names stores)))
      by (rewrite Hst; now left).
    apply stale_names_In in Hk. destruct Hk as [Hin Hne].
    elim Hne. now apply Hall.
Qed.

(* ================================================================== *)
(** * The message listener, and the shape of the storage *)

(** X18. The message listener never throws, and a message has an effect
    only if its data has the type [SKIP_WAITING]: the effect is the call
    of [self.skipWaiting()] and nothing else.  A message without data,
    with data without a type, or with another type changes nothing (lines
    141-146). *)
Theorem X18_message_listener_effect
    (data : option (option string)) (w : World) :
  message_listener data w =
  (Fulfilled tt,
   {| caches := caches w;
      console := console w;
      unhandled := unhandled w;
      skipped_waiting := skipped_waiting w || is_skip_command data |}) /\
  (is_skip_command data = false -> message_listener data w = (Fulfilled tt, w)).
Proof.
  destruct w as [cs co un sw]. destruct data as [[t|]|]; simpl.
  - destruct (t =? "SKIP_WAITING"); simpl.
    + rewrite orb_true_r. split; [reflexivity | discriminate].
    + rewrite orb_false_r. split; reflexivity.
  - rewrite orb_false_r. split; reflexivity.
  - rewrite orb_false_r. split; reflexivity.
Qed.

Lemma storage_wf_open (name : string) (s : CacheStorage) :
  storage_wf s -> storage_wf (storage_open name s).
Proof.
  intros [Hn Hk]. split; [now apply storage_open_NoDup|].
  intros n c Hin. unfold storage_open in Hin.
  destruct (storage_has name s); [now apply (Hk n c)|].
  apply in_app_or in Hin. destruct Hin as [Hin|[Heq|[]]].
  - now apply (Hk n c).
  - inversion Heq; subst. constructor.
Qed.

Lemma storage_wf_update (name : string) (f : Cache -> Cache)
    (s : CacheStorage) :
  (forall c, NoDup (cache_keys c) -> NoDup (cache_keys (f c))) ->
  storage_wf s -> storage_wf (storage_update name f s).
Proof.
  intros Hf [Hn Hk]. split; [now rewrite storage_names_update|].
  intros n c Hin. unfold storage_update in Hin. apply in_map_iff in Hin.
  destruct Hin as [[m d] [Heq Hin]]. simpl in Heq.
  destruct (m =? name); inversion Heq; subst.
  - apply Hf. now apply (Hk n d).
  - now apply (Hk n c).
Qed.

Lemma filter_names_NoDup (g : string * Cache -> bool) (s : CacheStorage) :
  NoDup (storage_names s) -> NoDup (storage_names (filter g s)).
Proof.
  unfold storage_names.
  induction s as [|[n c] s IH]; simpl; intros H; [constructor|].
  inversion H as [|? ? Hnin Hnd]; subst.
  destruct (g (n, c)); simpl; [|now apply IH].
  constructor; [|now apply IH].
  intros Hin. apply Hnin. apply in_map_iff in Hin.
  destruct Hin as [x [Hx Hin]]. apply filter_In in Hin.
  apply in_map_iff. exists x. tauto.
Qed.

Lemma storage_wf_detached_put (E : Env) (key : string) (r : Response)
    (w : World) :
  storage_wf (caches w) ->
  storage_wf (caches (after_detached_put E key r w)).
Proof.
  intros Hwf. unfold after_detached_put. destruct (put_accepts r); simpl.
  - apply storage_wf_update; [|now apply storage_wf_open].
    intros c. apply cache_replace_NoDup.
  - now apply storage_wf_open.
Qed.

(** X19. The three listeners keep the storage as the platform keeps it.
    From a storage in which no two caches have one name and no cache has a
    key twice, the storage after the install listener, after the fetch
    listener on any request, and in every state of the activate listener
    is again such a storage (lines 37-138). *)
Theorem X19_listeners_keep_storage_well_formed (E : Env) (w : World) :
  storage_wf (caches w) ->
  storage_wf (caches (snd (install E w))) /\
  (forall req, storage_wf (caches (snd (fetch_listener E req w)))) /\
  (forall schedule s,
     activate_run schedule (activate_begin E (caches w)) = Some s ->
     storage_wf (act_caches s)).
Proof.
  intros Hwf. split; [|split].
  - rewrite install_run. simpl.
    apply storage_wf_update; [|now apply storage_wf_open].
    intros c. apply cache_put_all_NoDup.
  - intros req.
    destruct (fetch_listener_world E req w) as [-> | [key [r ->]]];
      [exact Hwf | now apply storage_wf_detached_put].
  - intros schedule s Hrun.
    destruct (reachable_inv E _ schedule s Hrun) as [_ _ _ _ _ Hs].
    rewrite Hs. destruct Hwf as [Hn Hk]. split.
    + now apply filter_names_NoDup.
    + intros n c Hin. apply filter_In in Hin. apply (Hk n c). tauto.
Qed.

Lemma storage_wf_used : storage_wf (caches Demo.used).
Proof.
  split.
  - apply string_list_NoDup. reflexivity.
  - intros n c [Heq|[]]. inversion Heq; subst.
    apply string_list_NoDup. reflexivity.
Qed.

Lemma X19_witness :
  storage_wf (caches (snd (install Demo.shell_env Demo.used))) /\
  (forall req,
     storage_wf (caches (snd (fetch_listener Demo.shell_env req Demo.used)))) /\
  (forall schedule s,
     activate_run schedule (activate_begin Demo.shell_env (caches Demo.used))
       = Some s ->
     storage_wf (act_caches s)).
Proof.
  apply (X19_listeners_keep_storage_well_formed Demo.shell_env Demo.used).
  exact storage_wf_used.
Defined.

(* ================================================================== *)
(** * From install to fetch *)

(** After install, [caches.match] finds an asset that could be added
    under its URL, no cache of another name having an entry for it. *)
Lemma installed_asset_matched (E : Env) (a : string) (r : Response)
    (w : World) :
  In a (ASSETS_TO_CACHE E) ->
  add_fetch E a = inr r ->
  (forall n c, In (n, c) (caches w) -> n <> CACHE_NAME E ->
               cache_match (resolve E a) c = None) ->
  storage_match (resolve E a) (caches (snd (install E w))) = Some r.
Proof.
  intros Hin Ha Hoth.
  pose proof (install_keeps_success E a r w Hin Ha) as Hentry.
  unfold current_entry in Hentry.
  destruct (storage_get (CACHE_NAME E) (caches (snd (install E w))))
    as [c0|] eqn:Hget; [|discriminate].
  apply (storage_match_current (CACHE_NAME E) _ _ c0 r); auto.
  intros n c Hc Hn. apply (Hoth n c); [|exact Hn].
  rewrite install_run in Hc. simpl in Hc.
  exact (In_after_write _ _ _ n c Hc Hn).
Qed.

(** X20. An asset of the manifest that install could add is served from
    the cache afterwards: a GET request for its URL that is not a
    navigation is answered with the response stored at install, whatever
    the network does then, and nothing is written (lines 44-51 and
    101-104). *)
Theorem X20_installed_asset_served_from_cache
    (E : Env) (later : Request -> NetResult) (a : string) (r : Response)
    (req : Request) (w : World) :
  In a (ASSETS_TO_CACHE E) ->
  add_fetch E a = inr r ->
  (forall n c, In (n, c) (caches w) -> n <> CACHE_NAME E ->
               cache_match (resolve E a) c = None) ->
  method req = "GET" ->
  url req = resolve E a ->
  URL_parse E (url req) <> None ->
  is_navigation req = false ->
  fetch_listener (with_net E later) req (snd (install E w)) =
  (RespondWith (Fulfilled (Some r)), snd (install E w)).
Proof.
  intros Hin Ha Hoth Hm Hu Hp Hnav.
  destruct (URL_parse E (url req)) as [reqUrl|] eqn:Hparse; [|congruence].
  rewrite (fetch_listener_get (with_net E later) req reqUrl _ Hm Hparse), Hnav.
  unfold respondWith.
  rewrite (cache_first_hit (with_net E later) req reqUrl r); [reflexivity|].
  rewrite Hu. now apply installed_asset_matched.
Qed.

Lemma X20_witness :
  fetch_listener (with_net Demo.shell_env Demo.offline) Demo.app_js_request
    (snd (install Demo.shell_env Demo.old_world)) =
  (RespondWith (Fulfilled (Some (Demo.page "js"))),
   snd (install Demo.shell_env Demo.old_world)).
Proof.
  apply (X20_installed_asset_served_from_cache Demo.shell_env Demo.offline
           "/app.js" (Demo.page "js") Demo.app_js_request Demo.old_world).
  - simpl. tauto.
  - reflexivity.
  - intros n c [Heq|[]] _. inversion Heq; subst. reflexivity.
  - reflexivity.
  - reflexivity.
  - vm_compute. discriminate.
  - reflexivity.
Defined.

(** X21. When the manifest lists ['/index.html'] and install could add it,
    a navigation made while the network is down, to whatever URL, is
    answered with the document stored at install, no cache of another name
    holding an entry for the root document (lines 10, 44-51 and 94). *)
Theorem X21_offline_navigation_after_install
    (E : Env) (later : Request -> NetResult) (r : Response)
    (req : Request) (w : World) :
  In "/index.html" (ASSETS_TO_CACHE E) ->
  add_fetch E "/index.html" = inr r ->
  (forall n c, In (n, c) (caches w) -> n <> CACHE_NAME E ->
               cache_match (resolve E "/index.html") c = None) ->
  method req = "GET" ->
  URL_parse E (url req) <> None ->
  is_navigation req = true ->
  later req = NetFail ->
  fetch_listener (with_net E later) req (snd (install E w)) =
  (RespondWith (Fulfilled (Some r)), snd (install E w)).
Proof.
  intros Hin Ha Hoth Hm Hp Hnav Hn.
  destruct (URL_parse E (url req)) as [reqUrl|] eqn:Hparse; [|congruence].
  rewrite (fetch_listener_get (with_net E later) req reqUrl _ Hm Hparse), Hnav.
  unfold respondWith.
  rewrite (navigation_offline (with_net E later) req _ Hn).
  change (resolve (with_net E later) "/index.html")
    with (resolve E "/index.html").
  now rewrite (installed_asset_matched E "/index.html" r w Hin Ha Hoth).
Qed.

Lemma X21_witness :
  fetch_listener (with_net Demo.shipped_env Demo.offline) Demo.nav_request
    (snd (install Demo.shipped_env Demo.fresh)) =
  (RespondWith (Fulfilled (Some (Demo.page "/index.html"))),
   snd (install Demo.shipped_env Demo.fresh)).
Proof.
  apply (X21_offline_navigation_after_install Demo.shipped_env Demo.offline
           (Demo.page "/index.html") Demo.nav_request Demo.fresh).
  - simpl. tauto.
  - reflexivity.
  - intros n c [].
  - reflexivity.
  - vm_compute. discriminate.
  - reflexivity.
  - reflexivity.
Defined.


